(** * SQL-graph: table-level lineage resolution ([app.py])

    A shallow embedding of [get_production_lineage] and of the parts of
    its two collaborators that it calls:
    - sqlglot: the expression tree, its breadth-first [find_all] / [find]
      and [Table.this.sql()];
    - networkx: [DiGraph] with [add_node], [add_edge], [nodes], [edges]
      and [in_degree], over insertion-ordered dictionaries.

    The parser [sqlglot.parse_one] stays a parameter of the resolver: it
    maps a text to a tree or raises. *)

From Equations Require Import Equations.
From Stdlib Require Import List String Ascii Bool Arith Lia.
Import ListNotations.
Open Scope string_scope.
Open Scope list_scope.

(* ===================================================================== *)
(** ** Python exceptions and the [try] block *)
(* ===================================================================== *)

Module Py.

(** The exceptions that can leave a step of the resolver; all of them
    are instances of [Exception], hence caught by [except Exception]. *)
Inductive PyException : Type :=
  | ParseError (msg : string)
  | TokenError (msg : string)
  | ValueError (msg : string)
  | AttributeError (msg : string).

Inductive Exc (A : Type) : Type :=
  | Ok (a : A)
  | Raise (e : PyException).
Arguments Ok {A} a.
Arguments Raise {A} e.

Definition bind {A B} (c : Exc A) (k : A -> Exc B) : Exc B :=
    match c with
    | Ok a => k a
    | Raise e => Raise e
    end.

(** [for x in xs: s = body(x, s)] where the body may raise. *)
Fixpoint for_each {A S} (body : A -> S -> Exc S) (xs : list A) (s : S)
    : Exc S :=
    match xs with
    | [] => Ok s
    | x :: rest => bind (body x s) (for_each body rest)
    end.

(** [try: return c  except Exception: return dflt]. *)
Definition try_except {A} (c : Exc A) (dflt : A) : A :=
    match c with
    | Ok a => a
    | Raise _ => dflt
    end.

End Py.
Import Py.

Notation "x <- c1 ;; c2" := (Py.bind c1 (fun x => c2))
  (at level 61, c1 at next level, right associativity).
Notation "' pat <- c1 ;; c2" :=
  (Py.bind c1 (fun x => match x with pat => c2 end))
  (at level 61, pat pattern, c1 at next level, right associativity).

(* ===================================================================== *)
(** ** Insertion-ordered dictionaries (Python [dict]) *)
(* ===================================================================== *)

Module Dict.
Section Dict.
Context {V : Type}.

(** Items in insertion order. *)
Definition t := list (string * V).

Fixpoint get (k : string) (d : t) : option V :=
    match d with
    | [] => None
    | (k', v) :: rest => if String.eqb k k' then Some v else get k rest
    end.

Definition mem (k : string) (d : t) : bool :=
    match get k d with Some _ => true | None => false end.

(** [d[k] = v]: an existing key keeps its position, a new key goes last. *)
Fixpoint set (k : string) (v : V) (d : t) : t :=
    match d with
    | [] => [(k, v)]
    | (k', v') :: rest =>
        if String.eqb k k' then (k, v) :: rest else (k', v') :: set k v rest
    end.

(** [d.get(k, dflt)]. *)
Definition get_default (k : string) (dflt : V) (d : t) : V :=
    match get k d with Some v => v | None => dflt end.

Definition keys (d : t) : list string := map fst d.

(** [d.update(other)]. *)
Definition update (other d : t) : t :=
    fold_left (fun acc kv => set (fst kv) (snd kv) acc) other d.

End Dict.
Arguments t : clear implicits.
End Dict.

(* ===================================================================== *)
(** ** sqlglot expressions *)
(* ===================================================================== *)

(** The classes of [sqlglot.exp] the resolver tests with [isinstance];
    every other class is [Other].  A [Table] carries the text that
    [table.this.sql()] returns, or [None] when its [this] argument is
    absent (a table reference that names only a schema, as in
    [CREATE SCHEMA s]).  A [CTE] carries its [alias] property. *)
Inductive Kind : Type :=
| Table (this : option string)
| CTE (alias : string)
| Create
| Insert
| Select
| Other.

(** An expression: its class and its child expressions in argument
    order ([Expression.iter_expressions]). *)
#[warnings="-register-all"]
Inductive Expression : Type :=
| Node (kind : Kind) (args : list Expression).

Definition kind_of (e : Expression) : Kind :=
  match e with Node k _ => k end.

Definition iter_expressions (e : Expression) : list Expression :=
  match e with Node _ args => args end.

Fixpoint size (e : Expression) : nat :=
  match e with
  | Node _ args => S (list_sum (map size args))
  end.

Definition forest_size (q : list Expression) : nat :=
  list_sum (map size q).

(** [Expression.bfs]: pop the queue's head, yield it, append its
    children to the queue. *)
Equations? bfs (queue : list Expression) : list Expression
  by wf (forest_size queue) lt :=
  bfs [] := [];
  bfs (node :: rest) := node :: bfs (rest ++ iter_expressions node).
Proof.
  destruct node as [k args]. unfold forest_size.
  rewrite map_app, list_sum_app. simpl. lia.
Qed.

Definition walk (e : Expression) : list Expression := bfs [e].

Definition is_Table (k : Kind) : bool :=
  match k with Table _ => true | _ => false end.
Definition is_CTE (k : Kind) : bool :=
  match k with CTE _ => true | _ => false end.
Definition is_Select (k : Kind) : bool :=
  match k with Select => true | _ => false end.
(** [isinstance(node, (exp.Create, exp.Insert))]. *)
Definition is_Create_or_Insert (k : Kind) : bool :=
  match k with Create | Insert => true | _ => false end.

(** [e.find_all(types)], breadth first (the default). *)
Definition find_all (types : Kind -> bool) (e : Expression)
  : list Expression :=
  filter (fun n => types (kind_of n)) (walk e).

(** [e.find(types)]: the first node of [find_all], or [None]. *)
Definition find (types : Kind -> bool) (e : Expression)
  : option Expression :=
  hd_error (find_all types e).

(** [cte.alias]. *)
Definition alias_of (cte : Expression) : string :=
  match kind_of cte with CTE a => a | _ => "" end.

(** [table.this.sql()]; [None.sql()] is an [AttributeError]. *)
Definition this_sql (table : Expression) : Exc string :=
  match kind_of table with
  | Table (Some name) => Ok name
  | _ => Raise (AttributeError "'NoneType' object has no attribute 'sql'")
  end.

(* ===================================================================== *)
(** ** networkx [DiGraph] *)
(* ===================================================================== *)

Module nx.

(** Node attributes: a dictionary from attribute name to text. *)
Definition Attrs := Dict.t string.

(** The three dictionaries of a [DiGraph]: node attributes, successors
    and predecessors of every node.  A neighbour dictionary is kept as
    the list of its keys in insertion order, edges carrying no data. *)
Record DiGraph : Type := mkDiGraph {
    _node : Dict.t Attrs;
    _succ : Dict.t (list string);
    _pred : Dict.t (list string)
  }.

Definition empty : DiGraph := mkDiGraph [] [] [].

(** Setting a key of a neighbour dictionary: a key already there keeps
    its place. *)
Definition nbr_set (n : string) (nbrs : list string) : list string :=
    if existsb (String.eqb n) nbrs then nbrs else nbrs ++ [n].

(** [G.add_node(n, **attr)]: a new node gets empty neighbour
    dictionaries and [attr]; a known node has its attributes updated. *)
Definition add_node (n : string) (attr : Attrs) (G : DiGraph) : DiGraph :=
    if Dict.mem n (_node G)
    then mkDiGraph
           (Dict.set n (Dict.update attr (Dict.get_default n [] (_node G)))
                     (_node G))
           (_succ G) (_pred G)
    else mkDiGraph (Dict.set n (Dict.update attr []) (_node G))
                   (Dict.set n [] (_succ G))
                   (Dict.set n [] (_pred G)).

(** The implicit registration of an endpoint by [add_edge]. *)
Definition touch (n : string) (G : DiGraph) : DiGraph :=
    if Dict.mem n (_node G) then G
    else mkDiGraph (Dict.set n [] (_node G))
                   (Dict.set n [] (_succ G))
                   (Dict.set n [] (_pred G)).

(** [G.add_edge(u, v)]. *)
Definition add_edge (u v : string) (G : DiGraph) : DiGraph :=
    let G1 := touch u G in
    let G2 := touch v G1 in
    mkDiGraph (_node G2)
      (Dict.set u (nbr_set v (Dict.get_default u [] (_succ G2))) (_succ G2))
      (Dict.set v (nbr_set u (Dict.get_default v [] (_pred G2))) (_pred G2)).

(** [G.nodes]: the node names in insertion order. *)
Definition nodes (G : DiGraph) : list string := Dict.keys (_node G).

(** [G.nodes[n]]. *)
Definition node_attrs (n : string) (G : DiGraph) : Attrs :=
    Dict.get_default n [] (_node G).

(** [G.edges()]: for every node in adjacency order, its out-edges. *)
Definition edges (G : DiGraph) : list (string * string) :=
    flat_map (fun '(u, nbrs) => map (pair u) nbrs) (_succ G).

(** [G.in_degree(n)]. *)
Definition in_degree (n : string) (G : DiGraph) : nat :=
    List.length (Dict.get_default n [] (_pred G)).

End nx.

(* ===================================================================== *)
(** ** The resolver *)
(* ===================================================================== *)

(** One entry of the returned ["nodes"] list. *)
Record VisNode : Type := mkVisNode {
  id : string;
  label : string;
  color : string
}.

(** One entry of the returned ["edges"] list. *)
Record VisEdge : Type := mkVisEdge {
  from : string;
  to : string
}.

(** The returned dictionary [{"nodes": ..., "edges": ...}]. *)
Record Lineage : Type := mkLineage {
  nodes : list VisNode;
  edges : list VisEdge
}.

Definition RAW_COLOR := "#ff4d4d".
Definition CTE_COLOR := "#4da6ff".
Definition TARGET_COLOR := "#4dff88".

(** The category a colour stands for in the legend of the page. *)
Inductive Category : Type := Raw | Cte | Target.

Definition category (n : VisNode) : option Category :=
  if String.eqb (color n) RAW_COLOR then Some Raw
  else if String.eqb (color n) CTE_COLOR then Some Cte
  else if String.eqb (color n) TARGET_COLOR then Some Target
  else None.

(** Step 2: [{cte.alias: cte for cte in parsed.find_all(exp.CTE)}]. *)
Definition cte_registry (parsed : Expression) : Dict.t Expression :=
  fold_left (fun d cte => Dict.set (alias_of cte) cte d)
            (find_all is_CTE parsed) [].

(** Step 3, the loop body: the name of the first table below a write
    statement replaces [target_name]; a statement without a table leaves
    it as it is. *)
Definition target_step (statement : Expression)
  (target_name : option string) : Exc (option string) :=
  match find is_Table statement with
  | Some table => name <- this_sql table ;; Ok (Some name)
  | None => Ok target_name
  end.

Definition resolve_target (parsed : Expression) : Exc (option string) :=
  for_each target_step (find_all is_Create_or_Insert parsed) None.

(** Step 4: [trace_dependencies(expression, node_name)] on the graph. *)
Definition trace_step (node_name : string) (table : Expression)
  (G : nx.DiGraph) : Exc nx.DiGraph :=
  source <- this_sql table ;;
  Ok (if String.eqb source node_name then G
      else nx.add_edge source node_name G).

Definition trace_dependencies (expression : Expression)
  (node_name : string) (G : nx.DiGraph) : Exc nx.DiGraph :=
  for_each (trace_step node_name) (find_all is_Table expression) G.

Definition cte_attrs (alias : string) : nx.Attrs :=
  [("label", ("CTE: " ++ alias)%string); ("type", "CTE"); ("color", CTE_COLOR)].

Definition target_attrs (target_name : string) : nx.Attrs :=
  [("label", target_name); ("type", "TARGET"); ("color", TARGET_COLOR)].

(** Step 5: one node and one trace per registry item. *)
Definition cte_step (item : string * Expression) (G : nx.DiGraph)
  : Exc nx.DiGraph :=
  let '(alias, expression) := item in
  trace_dependencies expression alias (nx.add_node alias (cte_attrs alias) G).

Definition build_ctes (registry : Dict.t Expression) (G : nx.DiGraph)
  : Exc nx.DiGraph :=
  for_each cte_step registry G.

(** Truth value of [target_name] in [if target_name:]. *)
Definition truthy (target_name : option string) : bool :=
  match target_name with
  | Some name => negb (String.eqb name "")
  | None => false
  end.

(** Step 6: the target node and the trace of the first [Select]. *)
Definition build_target (parsed : Expression) (target_name : option string)
  (G : nx.DiGraph) : Exc nx.DiGraph :=
  match target_name with
  | Some name =>
      if truthy target_name then
        let G1 := nx.add_node name (target_attrs name) G in
        match find is_Select parsed with
        | Some main_select => trace_dependencies main_select name G1
        | None => Ok G1
        end
      else Ok G
  | None => Ok G
  end.

(** Steps 2 to 6: the assembled graph and the target name. *)
Definition assemble (parsed : Expression)
  : Exc (nx.DiGraph * option string) :=
  let registry := cte_registry parsed in
  target_name <- resolve_target parsed ;;
  G1 <- build_ctes registry nx.empty ;;
  G2 <- build_target parsed target_name G1 ;;
  Ok (G2, target_name).

(** Step 7, [node != target_name]. *)
Definition is_target (node : string) (target_name : option string) : bool :=
  match target_name with
  | Some name => String.eqb node name
  | None => false
  end.

Definition is_raw (G : nx.DiGraph) (target_name : option string)
  (node : string) : bool :=
  Nat.eqb (nx.in_degree node G) 0 && negb (is_target node target_name).

Definition format_node (G : nx.DiGraph) (target_name : option string)
  (node : string) : VisNode :=
  let raw := is_raw G target_name node in
  mkVisNode node
    (if raw then ("RAW: " ++ node)%string
     else Dict.get_default "label" node (nx.node_attrs node G))
    (if raw then RAW_COLOR
     else Dict.get_default "color" CTE_COLOR (nx.node_attrs node G)).

Definition format (G : nx.DiGraph) (target_name : option string) : Lineage :=
  mkLineage (map (format_node G target_name) (nx.nodes G))
            (map (fun '(u, v) => mkVisEdge u v) (nx.edges G)).

(** The body of the [try] block once the text is parsed. *)
Definition lineage_of (parsed : Expression) : Exc Lineage :=
  '(G, target_name) <- assemble parsed ;;
  Ok (format G target_name).

Definition empty_lineage : Lineage := mkLineage [] [].

Section Resolver.

(** [sqlglot.parse_one]. *)
Variable parse_one : string -> Exc Expression.

Definition get_production_lineage (sql : string) : Lineage :=
    try_except (parsed <- parse_one sql ;; lineage_of parsed) empty_lineage.

End Resolver.

(** The tree that [sqlglot.parse_one] builds for
    [WITH filtered AS (SELECT * FROM orders WHERE amount > 0)
     INSERT INTO report SELECT * FROM filtered]:
    [Insert(this=Table(report), expression=Select(expressions=[Star],
     from=From(Table(filtered))), with=With(expressions=[CTE(this=Select(
     expressions=[Star], from=From(Table(orders)), where=Where(GT(Column(
     Identifier(amount)), Literal(0)))), alias=TableAlias(Identifier(
     filtered)))]))].  Identifiers below a [Table] are part of its name. *)
Definition sql_filtered_report : string :=
  "WITH filtered AS (SELECT * FROM orders WHERE amount > 0) INSERT INTO report SELECT * FROM filtered".

Definition ast_filtered_report : Expression :=
  Node Insert
    [ Node (Table (Some "report")) [Node Other []];
      Node Select
        [ Node Other [];
          Node Other [Node (Table (Some "filtered")) [Node Other []]] ];
      Node Other
        [ Node (CTE "filtered")
            [ Node Select
                [ Node Other [];
                  Node Other [Node (Table (Some "orders")) [Node Other []]];
                  Node Other
                    [Node Other [Node Other [Node Other []]; Node Other []]] ];
              Node Other [Node Other []] ] ] ].

(** [WITH a AS (SELECT 1) INSERT INTO t SELECT * FROM a]: the body of
    the CTE reads no table. *)
Definition sql_constant_cte : string :=
  "WITH a AS (SELECT 1) INSERT INTO t SELECT * FROM a".

Definition ast_constant_cte : Expression :=
  Node Insert
    [ Node (Table (Some "t")) [Node Other []];
      Node Select
        [ Node Other [];
          Node Other [Node (Table (Some "a")) [Node Other []]] ];
      Node Other
        [ Node (CTE "a")
            [ Node Select [Node Other []];
              Node Other [Node Other []] ] ] ].










(** [WITH t AS (SELECT * FROM src) INSERT INTO t SELECT * FROM t]: the
    alias of the CTE is the name of the target. *)
Definition sql_alias_is_target : string :=
  "WITH t AS (SELECT * FROM src) INSERT INTO t SELECT * FROM t".

Definition ast_alias_is_target : Expression :=
  Node Insert
    [ Node (Table (Some "t")) [Node Other []];
      Node Select
        [ Node Other [];
          Node Other [Node (Table (Some "t")) [Node Other []]] ];
      Node Other
        [ Node (CTE "t")
            [ Node Select
                [ Node Other [];
                  Node Other [Node (Table (Some "src")) [Node Other []]] ];
              Node Other [Node Other []] ] ] ].

(** [INSERT INTO t VALUES (1)]: a write statement without any [Select]. *)
Definition sql_insert_values : string := "INSERT INTO t VALUES (1)".

Definition ast_insert_values : Expression :=
  Node Insert
    [ Node (Table (Some "t")) [Node Other []];
      Node Other [Node Other [Node Other []]] ].

(** [CREATE SCHEMA s]: the table reference below [Create] has a [db]
    but no [this]. *)
Definition sql_create_schema : string := "CREATE SCHEMA s".

Definition ast_create_schema : Expression :=
  Node Create [ Node (Table None) [Node Other []] ].

(** A tree with two [Insert] nodes below one root, as a multi-table
    insert into [first_t] and [second_t] from [src] has. *)
Definition ast_multi_insert : Expression :=
  Node Other
    [ Node Other
        [Node Insert [Node (Table (Some "first_t")) [Node Other []]]];
      Node Other
        [Node Insert [Node (Table (Some "second_t")) [Node Other []]]];
      Node Select
        [ Node Other [];
          Node Other [Node (Table (Some "src")) [Node Other []]] ] ].

(** [SELEC * FORM x] read as an expression: the product of two columns
    under an alias. *)
Definition ast_aliased_product : Expression :=
  Node Other
    [ Node Other
        [ Node Other [Node Other []]; Node Other [Node Other []] ];
      Node Other [] ].

(** A parser that knows one text and rejects every other. *)
Definition parses_only (sql : string) (parsed : Expression)
  : string -> Exc Expression :=
  fun text =>
    if String.eqb text sql then Ok parsed
    else Raise (ParseError "Invalid expression / Unexpected token").

(** A parser that rejects every text. *)
Definition rejects_all : string -> Exc Expression :=
  fun _ => Raise (ParseError "Invalid expression / Unexpected token").

(* ===================================================================== *)
(** ** Vocabulary of the properties *)
(* ===================================================================== *)

(** The graph and the target name that steps 2 to 6 give for a tree;
    the empty graph and no target when a step raises. *)
Definition assembled_graph (parsed : Expression) : nx.DiGraph :=
  fst (try_except (assemble parsed) (nx.empty, None)).

Definition assembled_target (parsed : Expression) : option string :=
  snd (try_except (assemble parsed) (nx.empty, None)).



(** The three kinds of node the resolver shows. *)
Definition raw_node (name : string) : VisNode :=
  mkVisNode name ("RAW: " ++ name)%string RAW_COLOR.
Definition cte_node (name : string) : VisNode :=
  mkVisNode name ("CTE: " ++ name)%string CTE_COLOR.
Definition target_node (name : string) : VisNode :=
  mkVisNode name name TARGET_COLOR.

(** [v in G._succ[u]] and [u in G._pred[v]]. *)
Definition mem_edge (G : nx.DiGraph) (u v : string) : Prop :=
  In v (Dict.get_default u [] (nx._succ G)).

Definition mem_pred (G : nx.DiGraph) (v u : string) : Prop :=
  In u (Dict.get_default v [] (nx._pred G)).

(** What [add_node] and [add_edge] maintain: the three dictionaries have
    the same keys in the same order, without repetition; no neighbour is
    listed twice; the predecessors are the transpose of the successors. *)
Record Inv (G : nx.DiGraph) : Prop := mkInv {
  inv_succ_keys : Dict.keys (nx._succ G) = Dict.keys (nx._node G);
  inv_pred_keys : Dict.keys (nx._pred G) = Dict.keys (nx._node G);
  inv_nodup : NoDup (Dict.keys (nx._node G));
  inv_nbrs : forall u, NoDup (Dict.get_default u [] (nx._succ G));
  inv_transpose : forall u v, mem_edge G u v <-> mem_pred G v u
}.

(** [name] is the text of some table reference below [e]. *)
Definition references (e : Expression) (name : string) : Prop :=
  exists table, In table (find_all is_Table e) /\ this_sql table = Ok name.

(** Edges that step 5 adds: [x] is referenced in the body registered
    under the alias [y]. *)
Definition feeds_cte (parsed : Expression) (x y : string) : Prop :=
  exists e, In (y, e) (cte_registry parsed) /\ references e x.

(** Edges that step 6 adds: [y] is the target, and [x] is referenced
    below the first [Select] of the statement. *)
Definition feeds_target (parsed : Expression) (target_name : option string)
  (x y : string) : Prop :=
  target_name = Some y /\ truthy target_name = true /\
  exists main_select, find is_Select parsed = Some main_select /\
                      references main_select x.

(** During step 5 a node has no attributes yet or those of a CTE. *)
Definition cte_phase (G : nx.DiGraph) : Prop :=
  forall x, nx.node_attrs x G = [] \/ nx.node_attrs x G = cte_attrs x.

(** What steps 2 to 6 establish about the assembled graph. *)
Record Assembled (parsed : Expression) (G : nx.DiGraph)
  (target_name : option string) : Prop := mkAssembled {
  asm_target : resolve_target parsed = Ok target_name;
  asm_inv : Inv G;
  asm_edges : forall x y,
    In (x, y) (nx.edges G) <->
    x <> y /\ (feeds_cte parsed x y \/ feeds_target parsed target_name x y);
  asm_cte_nodes : forall alias,
    In alias (Dict.keys (cte_registry parsed)) -> In alias (nx.nodes G);
  asm_cte_attrs : forall alias,
    In alias (Dict.keys (cte_registry parsed)) ->
    is_target alias target_name = false ->
    nx.node_attrs alias G = cte_attrs alias;
  asm_target_node : forall t,
    target_name = Some t -> truthy target_name = true ->
    In t (nx.nodes G) /\ nx.node_attrs t G = target_attrs t
}.

(** [x] is [e] or lies below it. *)
Inductive subexpr (x : Expression) : Expression -> Prop :=
| sub_self : subexpr x x
| sub_arg (k : Kind) (args : list Expression) (a : Expression) :
    In a args -> subexpr x a -> subexpr x (Node k args).

(** [table.this.sql()] returns for this table. *)
Definition named (table : Expression) : Prop :=
  exists name, this_sql table = Ok name.

(** The tables whose name the resolver asks for on a tree: the first
    table below every write statement, every table below a registered
    CTE, and, when the target passes [if target_name:], every table
    below the first [Select]. *)
Definition scanned_tables_named (parsed : Expression) : Prop :=
  Forall (fun st => forall t, find is_Table st = Some t -> named t)
         (find_all is_Create_or_Insert parsed) /\
  (forall alias e, In (alias, e) (cte_registry parsed) ->
                   Forall named (find_all is_Table e)) /\
  (forall target_name main_select,
      resolve_target parsed = Ok target_name ->
      truthy target_name = true ->
      find is_Select parsed = Some main_select ->
      Forall named (find_all is_Table main_select)).

(** [SELECT * FROM t]: a query without CTE and without write statement. *)
Definition sql_plain_select : string := "SELECT * FROM t".

Definition ast_plain_select : Expression :=
  Node Select
    [ Node Other [];
      Node Other [Node (Table (Some "t")) [Node Other []]] ].



(** [statement.find(exp.Table)] gives a table. *)
Definition has_table (statement : Expression) : bool :=
  match find is_Table statement with Some _ => true | None => false end.

(** The name of the first table below a statement, when there is one
    and it has a name. *)
Definition first_table_name (statement : Expression) : option string :=
  match find is_Table statement with
  | Some table =>
      match this_sql table with Ok name => Some name | Raise _ => None end
  | None => None
  end.

(* ===================================================================== *)
(** ** Facts about dictionaries *)
(* ===================================================================== *)

Ltac case_eqb k k' :=
  destruct (String.eqb_spec k k') as [?|?]; subst; try contradiction.

Section DictFacts.
Context {V : Type}.
Implicit Types (d : Dict.t V) (k : string) (v : V).

Lemma get_In k v d : Dict.get k d = Some v -> In (k, v) d.
  Proof.
    induction d as [|[k' v'] d IH]; simpl; [discriminate|].
    case_eqb k k'; intros H.
    - injection H as ->. now left.
    - right. auto.
  Qed.

Lemma get_None_keys k d : Dict.get k d = None <-> ~ In k (Dict.keys d).
  Proof.
    induction d as [|[k' v'] d IH]; simpl; [tauto|].
    case_eqb k k'.
    - split; [discriminate | intros H; exfalso; apply H; now left].
    - rewrite IH. intuition congruence.
  Qed.

Lemma mem_keys k d : Dict.mem k d = true <-> In k (Dict.keys d).
  Proof.
    unfold Dict.mem. pose proof (get_None_keys k d) as H.
    destruct (Dict.get k d); split; intros H1; try reflexivity;
      try discriminate.
    - destruct (in_dec string_dec k (Dict.keys d)) as [Hin|Hn]; [exact Hin|].
      apply H in Hn. discriminate.
    - exfalso. now apply (proj1 H).
  Qed.

Lemma mem_false_keys k d : Dict.mem k d = false <-> ~ In k (Dict.keys d).
  Proof.
    rewrite <- mem_keys. destruct (Dict.mem k d); intuition congruence.
  Qed.

Lemma In_get k v d : NoDup (Dict.keys d) -> In (k, v) d -> Dict.get k d = Some v.
  Proof.
    induction d as [|[k' v'] d IH]; simpl; [tauto|].
    intros Hnd [Heq|Hin].
    - injection Heq as -> ->. now rewrite String.eqb_refl.
    - inversion Hnd as [|? ? Hnotin Hnd']; subst.
      case_eqb k k'.
      + exfalso. apply Hnotin. change k' with (fst (k', v)). now apply in_map.
      + auto.
  Qed.

Lemma get_set k' k v d :
    Dict.get k' (Dict.set k v d) = if String.eqb k' k then Some v else Dict.get k' d.
  Proof.
    induction d as [|[k0 v0] d IH]; simpl.
    - reflexivity.
    - case_eqb k k0; simpl.
      + case_eqb k' k0; reflexivity.
      + case_eqb k' k0; [case_eqb k0 k; reflexivity | exact IH].
  Qed.

Lemma get_default_set k' k v dflt d :
    Dict.get_default k' dflt (Dict.set k v d)
    = if String.eqb k' k then v else Dict.get_default k' dflt d.
  Proof.
    unfold Dict.get_default. rewrite get_set. now case_eqb k' k.
  Qed.

Lemma set_known k v d :
    Dict.mem k d = true -> Dict.keys (Dict.set k v d) = Dict.keys d.
  Proof.
    unfold Dict.mem.
    induction d as [|[k0 v0] d IH]; simpl; [discriminate|].
    case_eqb k k0; simpl; [reflexivity|].
    intros H. now rewrite IH.
  Qed.

Lemma set_new k v d :
    Dict.mem k d = false -> Dict.set k v d = d ++ [(k, v)].
  Proof.
    unfold Dict.mem.
    induction d as [|[k0 v0] d IH]; simpl; [reflexivity|].
    case_eqb k k0; simpl; [discriminate|].
    intros H. now rewrite IH.
  Qed.

Lemma keys_set_incl k v d x :
    In x (Dict.keys (Dict.set k v d)) <-> x = k \/ In x (Dict.keys d).
  Proof.
    destruct (Dict.mem k d) eqn:Hm.
    - rewrite set_known by assumption. apply mem_keys in Hm.
      split; [tauto | intros [->|H]; assumption].
    - rewrite set_new by assumption. unfold Dict.keys.
      rewrite map_app, in_app_iff. simpl. intuition congruence.
  Qed.

Lemma mem_set k' k v d :
    Dict.mem k' (Dict.set k v d) = String.eqb k' k || Dict.mem k' d.
  Proof.
    unfold Dict.mem. rewrite get_set. now case_eqb k' k.
  Qed.

Lemma NoDup_keys_set k v d :
    NoDup (Dict.keys d) -> NoDup (Dict.keys (Dict.set k v d)).
  Proof.
    intros Hnd. destruct (Dict.mem k d) eqn:Hm.
    - now rewrite set_known.
    - rewrite set_new by assumption. unfold Dict.keys. rewrite map_app. simpl.
      apply mem_false_keys in Hm.
      apply NoDup_app; [exact Hnd | apply NoDup_cons; [simpl; tauto | constructor] |].
      simpl. intros x Hx [<-|[]]. contradiction.
  Qed.

Lemma set_In_inv k v k0 v0 d :
    In (k, v) (Dict.set k0 v0 d) -> (k = k0 /\ v = v0) \/ In (k, v) d.
  Proof.
    induction d as [|[k1 v1] d IH]; simpl.
    - intros [H|[]]. injection H as <- <-. now left.
    - case_eqb k0 k1; simpl.
      + intros [H|H]; [injection H as <- <-; now left | right; now right].
      + intros [H|H]; [right; now left |].
        destruct (IH H) as [?|?]; [now left | right; now right].
  Qed.

End DictFacts.

(* ===================================================================== *)
(** ** Facts about the graph *)
(* ===================================================================== *)

Lemma Inv_empty : Inv nx.empty.
Proof.
  split; simpl; try reflexivity; try constructor;
    unfold mem_edge, mem_pred; simpl; tauto.
Qed.

Lemma nbr_set_In n l y : In y (nx.nbr_set n l) <-> y = n \/ In y l.
Proof.
  unfold nx.nbr_set. destruct (existsb (String.eqb n) l) eqn:He.
  - apply existsb_exists in He as [x [Hx Hnx]].
    apply String.eqb_eq in Hnx. subst x.
    split; [tauto | intros [->|H]; assumption].
  - rewrite in_app_iff. simpl. intuition congruence.
Qed.

Lemma nbr_set_NoDup n l : NoDup l -> NoDup (nx.nbr_set n l).
Proof.
  intros Hnd. unfold nx.nbr_set.
  destruct (existsb (String.eqb n) l) eqn:He; [exact Hnd|].
  apply NoDup_app; [exact Hnd | apply NoDup_cons; [simpl; tauto | constructor] |].
  intros x Hx [Heq|[]]. subst x.
  assert (existsb (String.eqb n) l = true) as Ht
      by (apply existsb_exists; exists n; split; [exact Hx | apply String.eqb_refl]).
  congruence.
Qed.


Lemma flat_map_snoc_nil (d : Dict.t (list string)) n :
  flat_map (fun '(u, nbrs) => map (pair u) nbrs) (d ++ [(n, [])])
  = flat_map (fun '(u, nbrs) => map (pair u) nbrs) d.
Proof.
  rewrite flat_map_app. simpl. now rewrite app_nil_r.
Qed.

Section TouchFacts.
Variables (n : string) (G : nx.DiGraph).
Hypothesis HG : Inv G.

Lemma unknown_succ : Dict.mem n (nx._node G) = false -> Dict.mem n (nx._succ G) = false.
  Proof.
    rewrite !mem_false_keys. now rewrite (inv_succ_keys G HG).
  Qed.

Lemma unknown_pred : Dict.mem n (nx._node G) = false -> Dict.mem n (nx._pred G) = false.
  Proof.
    rewrite !mem_false_keys. now rewrite (inv_pred_keys G HG).
  Qed.

Lemma unknown_get_default {V} (d : Dict.t V) (dflt : V) :
    Dict.mem n d = false -> Dict.get_default n dflt d = dflt.
  Proof.
    unfold Dict.mem, Dict.get_default. now destruct (Dict.get n d).
  Qed.

Lemma touch_succ x :
    Dict.get_default x [] (nx._succ (nx.touch n G)) = Dict.get_default x [] (nx._succ G).
  Proof.
    unfold nx.touch. destruct (Dict.mem n (nx._node G)) eqn:Hm; [reflexivity|].
    simpl. rewrite get_default_set. case_eqb x n; [|reflexivity].
    symmetry. apply unknown_get_default. now apply unknown_succ.
  Qed.

Lemma touch_pred x :
    Dict.get_default x [] (nx._pred (nx.touch n G)) = Dict.get_default x [] (nx._pred G).
  Proof.
    unfold nx.touch. destruct (Dict.mem n (nx._node G)) eqn:Hm; [reflexivity|].
    simpl. rewrite get_default_set. case_eqb x n; [|reflexivity].
    symmetry. apply unknown_get_default. now apply unknown_pred.
  Qed.

Lemma touch_attrs x : nx.node_attrs x (nx.touch n G) = nx.node_attrs x G.
  Proof.
    unfold nx.touch, nx.node_attrs.
    destruct (Dict.mem n (nx._node G)) eqn:Hm; [reflexivity|].
    simpl. rewrite get_default_set. case_eqb x n; [|reflexivity].
    symmetry. now apply unknown_get_default.
  Qed.

Lemma touch_nodes x : In x (nx.nodes (nx.touch n G)) <-> x = n \/ In x (nx.nodes G).
  Proof.
    unfold nx.touch, nx.nodes.
    destruct (Dict.mem n (nx._node G)) eqn:Hm; simpl.
    - apply mem_keys in Hm. split; [tauto | intros [->|H]; assumption].
    - apply keys_set_incl.
  Qed.

Lemma touch_known : Dict.mem n (nx._node (nx.touch n G)) = true.
  Proof.
    unfold nx.touch. destruct (Dict.mem n (nx._node G)) eqn:Hm; [exact Hm|].
    simpl. rewrite mem_set, String.eqb_refl. reflexivity.
  Qed.

Lemma touch_known_mono x :
    Dict.mem x (nx._node G) = true -> Dict.mem x (nx._node (nx.touch n G)) = true.
  Proof.
    intros Hx. unfold nx.touch. destruct (Dict.mem n (nx._node G)) eqn:Hm; [exact Hx|].
    simpl. rewrite mem_set, Hx. apply orb_true_r.
  Qed.

Lemma touch_Inv : Inv (nx.touch n G).
  Proof.
    split.
    - unfold nx.touch. destruct (Dict.mem n (nx._node G)) eqn:Hm; [apply HG|].
      simpl. rewrite (set_new n _ (nx._succ G)) by now apply unknown_succ.
      rewrite (set_new n _ (nx._node G)) by assumption.
      unfold Dict.keys. rewrite !map_app. f_equal. apply HG.
    - unfold nx.touch. destruct (Dict.mem n (nx._node G)) eqn:Hm; [apply HG|].
      simpl. rewrite (set_new n _ (nx._pred G)) by now apply unknown_pred.
      rewrite (set_new n _ (nx._node G)) by assumption.
      unfold Dict.keys. rewrite !map_app. f_equal. apply HG.
    - unfold nx.touch. destruct (Dict.mem n (nx._node G)) eqn:Hm; [apply HG|].
      simpl. apply NoDup_keys_set, HG.
    - intros u. rewrite touch_succ. apply HG.
    - intros u v. unfold mem_edge, mem_pred. rewrite touch_succ, touch_pred.
      apply (inv_transpose G HG).
  Qed.

Lemma touch_edges : nx.edges (nx.touch n G) = nx.edges G.
  Proof.
    unfold nx.touch, nx.edges.
    destruct (Dict.mem n (nx._node G)) eqn:Hm; [reflexivity|].
    simpl. rewrite set_new by now apply unknown_succ.
    apply flat_map_snoc_nil.
  Qed.

End TouchFacts.

Section AddNodeFacts.
Variables (n : string) (attr : nx.Attrs) (G : nx.DiGraph).
Hypothesis HG : Inv G.

Lemma add_node_succ x :
    Dict.get_default x [] (nx._succ (nx.add_node n attr G))
    = Dict.get_default x [] (nx._succ G).
  Proof.
    unfold nx.add_node. destruct (Dict.mem n (nx._node G)) eqn:Hm; [reflexivity|].
    simpl. rewrite get_default_set. case_eqb x n; [|reflexivity].
    symmetry. apply unknown_get_default. now apply unknown_succ.
  Qed.

Lemma add_node_pred x :
    Dict.get_default x [] (nx._pred (nx.add_node n attr G))
    = Dict.get_default x [] (nx._pred G).
  Proof.
    unfold nx.add_node. destruct (Dict.mem n (nx._node G)) eqn:Hm; [reflexivity|].
    simpl. rewrite get_default_set. case_eqb x n; [|reflexivity].
    symmetry. apply unknown_get_default. now apply unknown_pred.
  Qed.

Lemma add_node_mem_edge u v : mem_edge (nx.add_node n attr G) u v <-> mem_edge G u v.
  Proof. unfold mem_edge. now rewrite add_node_succ. Qed.

Lemma add_node_attrs_same :
    nx.node_attrs n (nx.add_node n attr G) = Dict.update attr (nx.node_attrs n G).
  Proof.
    unfold nx.add_node, nx.node_attrs.
    destruct (Dict.mem n (nx._node G)) eqn:Hm; cbn [nx._node];
      rewrite get_default_set, String.eqb_refl; [reflexivity|].
    f_equal. symmetry. now apply unknown_get_default.
  Qed.

Lemma add_node_attrs_other x :
    x <> n -> nx.node_attrs x (nx.add_node n attr G) = nx.node_attrs x G.
  Proof.
    intros Hx. unfold nx.add_node, nx.node_attrs.
    destruct (Dict.mem n (nx._node G)) eqn:Hm; simpl;
      rewrite get_default_set; now case_eqb x n.
  Qed.

Lemma add_node_nodes x :
    In x (nx.nodes (nx.add_node n attr G)) <-> x = n \/ In x (nx.nodes G).
  Proof.
    unfold nx.add_node, nx.nodes.
    destruct (Dict.mem n (nx._node G)) eqn:Hm; simpl; apply keys_set_incl.
  Qed.

Lemma add_node_edges : nx.edges (nx.add_node n attr G) = nx.edges G.
  Proof.
    unfold nx.add_node, nx.edges.
    destruct (Dict.mem n (nx._node G)) eqn:Hm; [reflexivity|].
    simpl. rewrite set_new by now apply unknown_succ.
    apply flat_map_snoc_nil.
  Qed.

Lemma add_node_Inv : Inv (nx.add_node n attr G).
  Proof.
    split.
    - unfold nx.add_node. destruct (Dict.mem n (nx._node G)) eqn:Hm; simpl.
      + rewrite set_known by assumption. apply HG.
      + rewrite (set_new n _ (nx._succ G)) by now apply unknown_succ.
        rewrite (set_new n _ (nx._node G)) by assumption.
        unfold Dict.keys. rewrite !map_app. f_equal. apply HG.
    - unfold nx.add_node. destruct (Dict.mem n (nx._node G)) eqn:Hm; simpl.
      + rewrite set_known by assumption. apply HG.
      + rewrite (set_new n _ (nx._pred G)) by now apply unknown_pred.
        rewrite (set_new n _ (nx._node G)) by assumption.
        unfold Dict.keys. rewrite !map_app. f_equal. apply HG.
    - unfold nx.add_node. destruct (Dict.mem n (nx._node G)) eqn:Hm; simpl;
        apply NoDup_keys_set, HG.
    - intros u. rewrite add_node_succ. apply HG.
    - intros u v. unfold mem_edge, mem_pred.
      rewrite add_node_succ, add_node_pred. apply (inv_transpose G HG).
  Qed.

End AddNodeFacts.

Section AddEdgeFacts.
Variables (u v : string) (G : nx.DiGraph).
Hypothesis HG : Inv G.

Lemma touched_Inv : Inv (nx.touch v (nx.touch u G)).
Proof. apply touch_Inv, touch_Inv, HG. Qed.

Lemma touched_known_u : Dict.mem u (nx._node (nx.touch v (nx.touch u G))) = true.
Proof. apply touch_known_mono, touch_known. Qed.

Lemma touched_known_v : Dict.mem v (nx._node (nx.touch v (nx.touch u G))) = true.
Proof. apply touch_known. Qed.

Lemma add_edge_succ x :
  Dict.get_default x [] (nx._succ (nx.add_edge u v G))
  = if String.eqb x u then nx.nbr_set v (Dict.get_default u [] (nx._succ G))
    else Dict.get_default x [] (nx._succ G).
Proof.
  unfold nx.add_edge. cbn [nx._succ]. rewrite get_default_set.
  rewrite !(touch_succ v _ (touch_Inv u G HG)).
  now rewrite !(touch_succ u G HG).
Qed.

Lemma add_edge_pred x :
  Dict.get_default x [] (nx._pred (nx.add_edge u v G))
  = if String.eqb x v then nx.nbr_set u (Dict.get_default v [] (nx._pred G))
    else Dict.get_default x [] (nx._pred G).
Proof.
  unfold nx.add_edge. cbn [nx._pred]. rewrite get_default_set.
  rewrite !(touch_pred v _ (touch_Inv u G HG)).
  now rewrite !(touch_pred u G HG).
Qed.

Lemma add_edge_mem_edge x y :
  mem_edge (nx.add_edge u v G) x y <-> (x = u /\ y = v) \/ mem_edge G x y.
Proof.
  unfold mem_edge. rewrite add_edge_succ. case_eqb x u.
  - rewrite nbr_set_In. tauto.
  - tauto.
Qed.

Lemma add_edge_mem_pred y x :
  mem_pred (nx.add_edge u v G) y x <-> (x = u /\ y = v) \/ mem_pred G y x.
Proof.
  unfold mem_pred. rewrite add_edge_pred. case_eqb y v.
  - rewrite nbr_set_In. tauto.
  - tauto.
Qed.

Lemma add_edge_attrs x : nx.node_attrs x (nx.add_edge u v G) = nx.node_attrs x G.
Proof.
  change (nx.node_attrs x (nx.touch v (nx.touch u G)) = nx.node_attrs x G).
  rewrite (touch_attrs v (nx.touch u G)). apply (touch_attrs u G).
Qed.

Lemma add_edge_nodes x :
  In x (nx.nodes (nx.add_edge u v G)) <-> x = u \/ x = v \/ In x (nx.nodes G).
Proof.
  change (In x (nx.nodes (nx.touch v (nx.touch u G)))
          <-> x = u \/ x = v \/ In x (nx.nodes G)).
  rewrite !touch_nodes. tauto.
Qed.

Lemma add_edge_Inv : Inv (nx.add_edge u v G).
Proof.
  pose proof touched_Inv as H2.
  split.
  - unfold nx.add_edge. cbn [nx._succ nx._node].
    rewrite set_known; [apply H2|].
    apply mem_keys. rewrite (inv_succ_keys _ H2). apply mem_keys, touched_known_u.
  - unfold nx.add_edge. cbn [nx._pred nx._node].
    rewrite set_known; [apply H2|].
    apply mem_keys. rewrite (inv_pred_keys _ H2). apply mem_keys, touched_known_v.
  - unfold nx.add_edge. cbn [nx._node]. apply H2.
  - intros x. rewrite add_edge_succ. case_eqb x u; [|apply HG].
    apply nbr_set_NoDup, HG.
  - intros x y. rewrite add_edge_mem_edge, add_edge_mem_pred.
    rewrite (inv_transpose G HG). tauto.
Qed.

End AddEdgeFacts.

Section ReadFacts.
Variable G : nx.DiGraph.
Hypothesis HG : Inv G.

Lemma in_flat_pairs (d : Dict.t (list string)) u v :
    In (u, v) (flat_map (fun '(u, nbrs) => map (pair u) nbrs) d)
    <-> exists nbrs, In (u, nbrs) d /\ In v nbrs.
  Proof.
    rewrite in_flat_map. split.
    - intros [[u' nbrs] [Hin Hm]]. apply in_map_iff in Hm as [y [Heq Hy]].
      injection Heq as -> ->. now exists nbrs.
    - intros [nbrs [Hin Hv]]. exists (u, nbrs). split; [exact Hin|].
      now apply in_map.
  Qed.

(** [(u, v) in G.edges()] exactly when [v in G._succ[u]]. *)
Lemma edges_spec u v : In (u, v) (nx.edges G) <-> mem_edge G u v.
  Proof.
    unfold nx.edges, mem_edge, Dict.get_default. rewrite in_flat_pairs.
    assert (NoDup (Dict.keys (nx._succ G))) as Hnd
        by (rewrite (inv_succ_keys G HG); apply HG).
    split.
    - intros [nbrs [Hin Hv]]. now rewrite (In_get _ _ _ Hnd Hin).
    - destruct (Dict.get u (nx._succ G)) as [nbrs|] eqn:Hget; [|intros []].
      intros Hv. exists nbrs. split; [now apply get_In | exact Hv].
  Qed.



Lemma nodes_NoDup : NoDup (nx.nodes G).
  Proof. apply HG. Qed.

(** [G.in_degree(n) == 0] exactly when no edge ends in [n]. *)
Lemma in_degree_zero n :
    nx.in_degree n G = 0 <-> forall u, ~ In (u, n) (nx.edges G).
  Proof.
    unfold nx.in_degree. split.
    - intros H u Hin. apply edges_spec, (inv_transpose G HG) in Hin.
      unfold mem_pred in Hin.
      destruct (Dict.get_default n [] (nx._pred G)); [exact Hin | discriminate].
    - intros H. destruct (Dict.get_default n [] (nx._pred G)) as [|u l] eqn:Hp;
        [reflexivity|].
      exfalso. apply (H u), edges_spec, (inv_transpose G HG).
      unfold mem_pred. rewrite Hp. now left.
  Qed.

End ReadFacts.

(* ===================================================================== *)
(** ** Facts about the resolver's steps *)
(* ===================================================================== *)

Lemma bind_Ok {A B} (c : Exc A) (k : A -> Exc B) b :
  Py.bind c k = Ok b -> exists a, c = Ok a /\ k a = Ok b.
Proof. destruct c as [a|e]; simpl; [now exists a | discriminate]. Qed.

Lemma trace_steps_spec name tables : forall G G',
  Inv G ->
  for_each (trace_step name) tables G = Ok G' ->
  Inv G' /\
  (forall x y, mem_edge G' x y <->
     mem_edge G x y \/
     (y = name /\ x <> name /\ exists t, In t tables /\ this_sql t = Ok x)) /\
  (forall x, nx.node_attrs x G' = nx.node_attrs x G) /\
  (forall x, In x (nx.nodes G) -> In x (nx.nodes G')).
Proof.
  induction tables as [|t ts IH]; simpl; intros G G' HG H.
  - injection H as <-. split; [exact HG|]. split; [|split; auto].
    intros x y. split; [tauto|].
    intros [?|(_ & _ & t & [] & _)]; assumption.
  - apply bind_Ok in H as [G1 [Hstep Hrest]].
    unfold trace_step in Hstep. apply bind_Ok in Hstep as [source [Hsrc HG1]].
    injection HG1 as HG1.
    assert (Inv G1) as HI1
        by (subst G1; destruct (String.eqb source name); [exact HG | now apply add_edge_Inv]).
    destruct (IH G1 G' HI1 Hrest) as (HI' & Hedges & Hattrs & Hnodes).
    split; [exact HI'|]. split; [|split].
    + intros x y. rewrite Hedges. subst G1. case_eqb source name.
      * split.
        -- intros [?|(-> & Hx & t' & Ht' & Hsql)]; [now left|].
           right. repeat split; auto. exists t'. split; [now right | exact Hsql].
        -- intros [?|(-> & Hx & t' & [<-|Ht'] & Hsql)]; [now left | congruence |].
           right. repeat split; auto. now exists t'.
      * rewrite (add_edge_mem_edge source name G HG). split.
        -- intros [[[-> ->]|?]|(-> & Hx & t' & Ht' & Hsql)].
           ++ right. repeat split; auto. exists t. split; [now left | exact Hsrc].
           ++ now left.
           ++ right. repeat split; auto. exists t'. split; [now right | exact Hsql].
        -- intros [?|(-> & Hx & t' & [<-|Ht'] & Hsql)].
           ++ left. now right.
           ++ left. left. split; congruence.
           ++ right. repeat split; auto. now exists t'.
    + intros x. rewrite Hattrs. subst G1.
      destruct (String.eqb source name); [reflexivity | now apply add_edge_attrs].
    + intros x Hx. apply Hnodes. subst G1.
      destruct (String.eqb source name); [exact Hx|].
      apply add_edge_nodes. tauto.
Qed.

Lemma trace_dependencies_spec e name G G' :
  Inv G ->
  trace_dependencies e name G = Ok G' ->
  Inv G' /\
  (forall x y, mem_edge G' x y <->
     mem_edge G x y \/ (y = name /\ x <> name /\ references e x)) /\
  (forall x, nx.node_attrs x G' = nx.node_attrs x G) /\
  (forall x, In x (nx.nodes G) -> In x (nx.nodes G')).
Proof. apply trace_steps_spec. Qed.

Lemma cte_attrs_update x old :
  old = [] \/ old = cte_attrs x -> Dict.update (cte_attrs x) old = cte_attrs x.
Proof. intros [->| ->]; reflexivity. Qed.

Lemma cte_step_spec alias e G G' :
  Inv G -> cte_phase G ->
  cte_step (alias, e) G = Ok G' ->
  Inv G' /\ cte_phase G' /\
  (forall x y, mem_edge G' x y <->
     mem_edge G x y \/ (y = alias /\ x <> alias /\ references e x)) /\
  nx.node_attrs alias G' = cte_attrs alias /\
  (forall x, nx.node_attrs x G = cte_attrs x -> nx.node_attrs x G' = cte_attrs x) /\
  In alias (nx.nodes G') /\
  (forall x, In x (nx.nodes G) -> In x (nx.nodes G')).
Proof.
  intros HG Hph H. unfold cte_step in H.
  pose proof (add_node_Inv alias (cte_attrs alias) G HG) as HI1.
  destruct (trace_dependencies_spec _ _ _ _ HI1 H) as (HI' & Hedges & Hattrs & Hnodes).
  assert (nx.node_attrs alias G' = cte_attrs alias) as Halias.
  { rewrite Hattrs, add_node_attrs_same by assumption.
    apply cte_attrs_update, Hph. }
  assert (forall x, x <> alias -> nx.node_attrs x G' = nx.node_attrs x G) as Hother.
  { intros x Hx. rewrite Hattrs. now apply add_node_attrs_other. }
  split; [exact HI'|]. split; [|split; [|split; [exact Halias|split; [|split]]]].
  - intros x. destruct (string_dec x alias) as [->|Hx]; [now right|].
    rewrite (Hother x Hx). apply Hph.
  - intros x y. split.
    + intros Hm. apply Hedges in Hm as [Hm|?]; [left | now right].
      now apply (add_node_mem_edge alias (cte_attrs alias) G HG).
    + intros [?|?]; apply Hedges; [left; now apply add_node_mem_edge | now right].
  - intros x Hx. destruct (string_dec x alias) as [->|Hne]; [exact Halias|].
    now rewrite Hother.
  - apply Hnodes, add_node_nodes. now left.
  - intros x Hx. apply Hnodes, add_node_nodes. now right.
Qed.

Lemma build_ctes_spec registry : forall G G',
  Inv G -> cte_phase G ->
  build_ctes registry G = Ok G' ->
  Inv G' /\ cte_phase G' /\
  (forall x y, mem_edge G' x y <->
     mem_edge G x y \/
     (x <> y /\ exists e, In (y, e) registry /\ references e x)) /\
  (forall x, nx.node_attrs x G = cte_attrs x \/ In x (Dict.keys registry) ->
             nx.node_attrs x G' = cte_attrs x) /\
  (forall x, In x (nx.nodes G) \/ In x (Dict.keys registry) -> In x (nx.nodes G')).
Proof.
  unfold build_ctes.
  induction registry as [|[alias e] rest IH]; simpl; intros G G' HG Hph H.
  - injection H as <-. split; [exact HG|]. split; [exact Hph|].
    split; [|split; [intros x [?|[]]; assumption | intros x [?|[]]; assumption]].
    intros x y. split; [tauto|].
    intros [?|(_ & e & [] & _)]; assumption.
  - apply bind_Ok in H as [G1 [Hstep Hrest]].
    destruct (cte_step_spec _ _ _ _ HG Hph Hstep)
      as (HI1 & Hph1 & Hedges1 & Halias & Hkeep & Hin & Hmono).
    destruct (IH G1 G' HI1 Hph1 Hrest) as (HI' & Hph' & Hedges & Hattrs & Hnodes).
    split; [exact HI'|]. split; [exact Hph'|]. split; [|split].
    + intros x y. rewrite Hedges, Hedges1. split.
      * intros [[?|(-> & Hx & Href)]|(Hxy & e' & Hin' & Href)].
        -- now left.
        -- right. split; [exact Hx|]. exists e. split; [now left | exact Href].
        -- right. split; [exact Hxy|]. exists e'. split; [now right | exact Href].
      * intros [?|(Hxy & e' & [Heq|Hin'] & Href)].
        -- left. now left.
        -- injection Heq as <- <-. left. right. repeat split; auto.
        -- right. split; [exact Hxy|]. now exists e'.
    + intros x [Hx|[<-|Hx]]; apply Hattrs; auto.
    + intros x [Hx|[<-|Hx]]; apply Hnodes; auto.
Qed.

Lemma target_attrs_update t old :
  old = [] \/ old = cte_attrs t -> Dict.update (target_attrs t) old = target_attrs t.
Proof. intros [->| ->]; reflexivity. Qed.

Lemma build_target_spec parsed target_name G G' :
  Inv G -> cte_phase G ->
  build_target parsed target_name G = Ok G' ->
  Inv G' /\
  (forall x y, mem_edge G' x y <->
     mem_edge G x y \/ (x <> y /\ feeds_target parsed target_name x y)) /\
  (forall x, is_target x target_name = false ->
             nx.node_attrs x G' = nx.node_attrs x G) /\
  (forall t, target_name = Some t -> truthy target_name = true ->
             In t (nx.nodes G') /\ nx.node_attrs t G' = target_attrs t) /\
  (forall x, In x (nx.nodes G) -> In x (nx.nodes G')).
Proof.
  intros HG Hph H. unfold build_target in H.
  assert (truthy target_name = false -> G' = G) as Hfalsy.
  { intros Hf. destruct target_name as [t|]; [rewrite Hf in H|]; congruence. }
  destruct (truthy target_name) eqn:Htruthy.
  2:{ rewrite (Hfalsy eq_refl). split; [exact HG|].
      split; [|split; [reflexivity | split; [discriminate | auto]]].
      intros x y. split; [tauto|]. intros [?|(_ & _ & ? & _)]; [assumption | congruence]. }
  clear Hfalsy. destruct target_name as [t|]; [|discriminate].
  pose proof (add_node_Inv t (target_attrs t) G HG) as HI1.
  set (G1 := nx.add_node t (target_attrs t) G) in *.
  assert (nx.node_attrs t G1 = target_attrs t) as Ht1.
  { unfold G1. rewrite add_node_attrs_same by assumption.
    apply target_attrs_update, Hph. }
  assert (In t (nx.nodes G1)) as Hin1 by (apply add_node_nodes; now left).
  assert (forall x, In x (nx.nodes G) -> In x (nx.nodes G1)) as Hmono1
      by (intros x Hx; apply add_node_nodes; now right).
  assert (forall x, is_target x (Some t) = false ->
                    nx.node_attrs x G1 = nx.node_attrs x G) as Hother1.
  { intros x Hx. simpl in Hx. apply String.eqb_neq in Hx.
    now apply add_node_attrs_other. }
  assert (forall x y, mem_edge G1 x y <-> mem_edge G x y) as Hedges1
      by (intros x y; now apply add_node_mem_edge).
  destruct (find is_Select parsed) as [main_select|] eqn:Hfind.
  - destruct (trace_dependencies_spec _ _ _ _ HI1 H) as (HI' & Hedges & Hattrs & Hnodes).
    split; [exact HI'|]. split; [|split; [|split]].
    + intros x y. rewrite Hedges, Hedges1. unfold feeds_target. split.
      * intros [?|(-> & Hx & Href)]; [now left|].
        right. repeat split; auto. now exists main_select.
      * intros [?|(Hxy & Heq & _ & m & Hm & Href)]; [now left|].
        injection Heq as <-. rewrite Hfind in Hm. injection Hm as <-.
        right. repeat split; auto.
    + intros x Hx. rewrite Hattrs. now apply Hother1.
    + intros t' Heq _. injection Heq as <-. split; [now apply Hnodes|].
      now rewrite Hattrs.
    + intros x Hx. now apply Hnodes, Hmono1.
  - injection H as <-. split; [exact HI1|]. split; [|split; [|split]].
    + intros x y. rewrite Hedges1. unfold feeds_target. split; [tauto|].
      intros [?|(_ & _ & _ & m & Hm & _)]; [assumption | congruence].
    + exact Hother1.
    + intros t' Heq _. injection Heq as <-. now split.
    + exact Hmono1.
Qed.

Lemma cte_phase_empty : cte_phase nx.empty.
Proof. intros x. now left. Qed.

Lemma registry_keys_NoDup parsed : NoDup (Dict.keys (cte_registry parsed)).
Proof.
  unfold cte_registry.
  assert (forall ctes (d : Dict.t Expression), NoDup (Dict.keys d) ->
            NoDup (Dict.keys (fold_left (fun d cte => Dict.set (alias_of cte) cte d) ctes d)))
    as H.
  { induction ctes as [|c ctes IH]; simpl; intros d Hd; [exact Hd|].
    apply IH, NoDup_keys_set, Hd. }
  apply H. constructor.
Qed.

Lemma registry_functional parsed alias e e' :
  In (alias, e) (cte_registry parsed) -> In (alias, e') (cte_registry parsed) -> e = e'.
Proof.
  intros H H'. pose proof (registry_keys_NoDup parsed) as Hnd.
  apply (In_get _ _ _ Hnd) in H. apply (In_get _ _ _ Hnd) in H'. congruence.
Qed.

Lemma assemble_spec parsed G target_name :
  assemble parsed = Ok (G, target_name) -> Assembled parsed G target_name.
Proof.
  unfold assemble. intros H.
  apply bind_Ok in H as [tn [Htn H]].
  apply bind_Ok in H as [G1 [HG1 H]].
  apply bind_Ok in H as [G2 [HG2 H]].
  injection H as <- <-.
  destruct (build_ctes_spec _ _ _ Inv_empty cte_phase_empty HG1)
    as (HI1 & Hph1 & Hedges1 & Hattrs1 & Hnodes1).
  destruct (build_target_spec _ _ _ _ HI1 Hph1 HG2)
    as (HI2 & Hedges2 & Hattrs2 & Htarget & Hnodes2).
  split.
  - exact Htn.
  - exact HI2.
  - intros x y. rewrite (edges_spec G2 HI2), Hedges2, Hedges1.
    unfold feeds_cte, mem_edge. simpl. tauto.
  - intros alias Hin. apply Hnodes2, Hnodes1. now right.
  - intros alias Hin Hnt. rewrite Hattrs2 by assumption. apply Hattrs1. now right.
  - exact Htarget.
Qed.

(* ===================================================================== *)
(** ** The resolver as a whole *)
(* ===================================================================== *)

Lemma lineage_of_Ok parsed r :
  lineage_of parsed = Ok r ->
  exists G target_name, assemble parsed = Ok (G, target_name) /\
                        r = format G target_name.
Proof.
  unfold lineage_of. intros H. apply bind_Ok in H as [[G tn] [Hasm Hr]].
  injection Hr as <-. now exists G, tn.
Qed.

Lemma assemble_lineage_of parsed G target_name :
  assemble parsed = Ok (G, target_name) ->
  lineage_of parsed = Ok (format G target_name).
Proof. unfold lineage_of. now intros ->. Qed.

Lemma resolved_by_assemble parse_one sql parsed G target_name :
  parse_one sql = Ok parsed ->
  assemble parsed = Ok (G, target_name) ->
  get_production_lineage parse_one sql = format G target_name.
Proof.
  intros Hp Ha. unfold get_production_lineage. rewrite Hp. simpl.
  now rewrite (assemble_lineage_of _ _ _ Ha).
Qed.

(** Either the resolver gives the empty result, or the text parsed, the
    graph was assembled, and the result is its formatting. *)
Lemma get_production_lineage_cases parse_one sql :
  get_production_lineage parse_one sql = empty_lineage \/
  exists parsed G target_name,
    parse_one sql = Ok parsed /\ assemble parsed = Ok (G, target_name) /\
    get_production_lineage parse_one sql = format G target_name.
Proof.
  unfold get_production_lineage.
  destruct (parse_one sql) as [parsed|e] eqn:Hp; simpl; [|now left].
  destruct (lineage_of parsed) as [r|e] eqn:Hl; simpl; [|now left].
  right. apply lineage_of_Ok in Hl as (G & tn & Ha & ->). now exists parsed, G, tn.
Qed.

Lemma format_edges_In G target_name e :
  In e (edges (format G target_name)) <-> In (from e, to e) (nx.edges G).
Proof.
  unfold format. cbn [edges]. rewrite in_map_iff. split.
  - intros [[u v] [<- Hin]]. exact Hin.
  - intros Hin. exists (from e, to e). split; [now destruct e | exact Hin].
Qed.

Lemma format_nodes_In G target_name n :
  In n (nodes (format G target_name)) <->
  In (id n) (nx.nodes G) /\ n = format_node G target_name (id n).
Proof.
  unfold format. cbn [nodes]. rewrite in_map_iff. split.
  - intros [x [<- Hin]]. now split.
  - intros [Hin Heq]. now exists (id n).
Qed.





Lemma for_each_app {A S} (body : A -> S -> Exc S) xs ys s :
  for_each body (xs ++ ys) s = Py.bind (for_each body xs s) (for_each body ys).
Proof.
  revert s. induction xs as [|x xs IH]; simpl; intros s; [reflexivity|].
  destruct (body x s) as [s1|e]; simpl; [apply IH | reflexivity].
Qed.

(** The loop of step 3 does not raise as long as every first table it
    meets has a name. *)
Lemma target_steps_total statements : forall acc,
  Forall (fun st => forall t, find is_Table st = Some t ->
                              exists n, this_sql t = Ok n) statements ->
  exists acc', for_each target_step statements acc = Ok acc'.
Proof.
  induction statements as [|st rest IH]; simpl; intros acc Hall.
  - now exists acc.
  - inversion Hall as [|? ? Hst Hrest]; subst.
    unfold target_step at 1.
    destruct (find is_Table st) as [t|] eqn:Hf; simpl; [|now apply IH].
    destruct (Hst t eq_refl) as [n ->]. simpl. now apply IH.
Qed.

Lemma truthy_Some t : t <> "" -> truthy (Some t) = true.
Proof. intros Ht. simpl. now apply negb_true_iff, String.eqb_neq. Qed.

Lemma is_target_refl t : is_target t (Some t) = true.
Proof. apply String.eqb_refl. Qed.

(** The node of a truthy target is shown with its bare name and the
    colour of a target. *)
Lemma target_node_shown parsed G t :
  Assembled parsed G (Some t) -> t <> "" ->
  In t (nx.nodes G) /\ format_node G (Some t) t = target_node t.
Proof.
  intros HA Ht.
  destruct (asm_target_node _ _ _ HA t eq_refl (truthy_Some t Ht)) as [Hin Hattrs].
  split; [exact Hin|].
  unfold format_node, is_raw. rewrite is_target_refl, andb_false_r, Hattrs.
  reflexivity.
Qed.

(** The node of a CTE alias other than the target is shown as a raw
    source when nothing points to it and as a CTE otherwise. *)
Lemma cte_node_shown parsed G target_name alias :
  Assembled parsed G target_name ->
  In alias (Dict.keys (cte_registry parsed)) ->
  is_target alias target_name = false ->
  format_node G target_name alias
  = if Nat.eqb (nx.in_degree alias G) 0 then raw_node alias else cte_node alias.
Proof.
  intros HA Hin Hnt. unfold format_node, is_raw. rewrite Hnt. simpl.
  rewrite andb_true_r.
  destruct (Nat.eqb (nx.in_degree alias G) 0); [reflexivity|].
  rewrite (asm_cte_attrs _ _ _ HA alias Hin Hnt). reflexivity.
Qed.

(* ===================================================================== *)
(** ** The specified properties *)
(* ===================================================================== *)

(** C1.  When the parser reads
    [WITH filtered AS (SELECT * FROM orders WHERE amount > 0)
     INSERT INTO report SELECT * FROM filtered] as the tree above, the
    resolver returns the nodes [filtered] (CTE), [orders] (raw source)
    and [report] (target), and exactly the two edges
    [orders -> filtered] and [filtered -> report]. *)
Theorem lineage_filtered_report (parse_one : string -> Exc Expression) :
  parse_one sql_filtered_report = Ok ast_filtered_report ->
  let r := get_production_lineage parse_one sql_filtered_report in
  nodes r = [cte_node "filtered"; raw_node "orders"; target_node "report"] /\
  map category (nodes r) = [Some Cte; Some Raw; Some Target] /\
  edges r = [mkVisEdge "filtered" "report"; mkVisEdge "orders" "filtered"] /\
  (forall e, In e (edges r) <->
             e = mkVisEdge "orders" "filtered" \/ e = mkVisEdge "filtered" "report").
Proof.
  intros Hp r.
  assert (r = mkLineage
                [cte_node "filtered"; raw_node "orders"; target_node "report"]
                [mkVisEdge "filtered" "report"; mkVisEdge "orders" "filtered"])
    as ->.
  { unfold r, get_production_lineage. rewrite Hp. vm_compute. reflexivity. }
  cbn [nodes edges]. repeat split; try reflexivity.
  - intros [<-|[<-|[]]]; [now right | now left].
  - intros [->| ->]; simpl; tauto.
Qed.

Lemma lineage_filtered_report_witness :
  let r := get_production_lineage
             (parses_only sql_filtered_report ast_filtered_report)
             sql_filtered_report in
  nodes r = [cte_node "filtered"; raw_node "orders"; target_node "report"] /\
  map category (nodes r) = [Some Cte; Some Raw; Some Target] /\
  edges r = [mkVisEdge "filtered" "report"; mkVisEdge "orders" "filtered"] /\
  (forall e, In e (edges r) <->
             e = mkVisEdge "orders" "filtered" \/ e = mkVisEdge "filtered" "report").
Proof.
  apply (lineage_filtered_report
           (parses_only sql_filtered_report ast_filtered_report)).
  reflexivity.
Defined.

(** C3.  Whatever the parser and the text, no returned edge has the same
    name at both ends: [trace_dependencies] skips a table whose name is
    that of the node it traces for. *)
Theorem no_self_loop (parse_one : string -> Exc Expression) (sql : string) :
  Forall (fun e => from e <> to e)
         (edges (get_production_lineage parse_one sql)).
Proof.
  apply Forall_forall. intros e He.
  destruct (get_production_lineage_cases parse_one sql)
    as [Hemp|(parsed & G & tn & _ & Ha & Hr)].
  - rewrite Hemp in He. destruct He.
  - rewrite Hr in He. apply format_edges_In in He.
    apply (asm_edges _ _ _ (assemble_spec _ _ _ Ha)) in He. tauto.
Qed.

(** C4.  When [parse_one] raises on the text, or a later step of the
    [try] block raises on the tree, the resolver returns
    [{"nodes": [], "edges": []}]; its result type has no other channel
    for the failure. *)
Theorem failure_gives_empty_lineage
  (parse_one : string -> Exc Expression) (sql : string) :
  (exists e, parse_one sql = Raise e) \/
  (exists parsed e, parse_one sql = Ok parsed /\ lineage_of parsed = Raise e) ->
  get_production_lineage parse_one sql = empty_lineage.
Proof.
  unfold get_production_lineage.
  intros [[e ->]|(parsed & e & -> & Hl)]; simpl; [reflexivity|].
  now rewrite Hl.
Qed.

Lemma failure_gives_empty_lineage_witness :
  get_production_lineage rejects_all "SELEC * FORM x" = empty_lineage /\
  get_production_lineage (parses_only sql_create_schema ast_create_schema)
                         sql_create_schema = empty_lineage.
Proof.
  split.
  - apply (failure_gives_empty_lineage rejects_all "SELEC * FORM x").
    left. eexists. reflexivity.
  - apply (failure_gives_empty_lineage
             (parses_only sql_create_schema ast_create_schema) sql_create_schema).
    right. exists ast_create_schema. eexists. split; reflexivity.
Defined.

(** A parser that accepts [SELEC * FORM x] as an aliased product leads to
    the empty result as well: the tree has no table, CTE or write node. *)
Example aliased_product_is_empty :
  get_production_lineage (parses_only "SELEC * FORM x" ast_aliased_product)
                         "SELEC * FORM x" = empty_lineage.
Proof. vm_compute. reflexivity. Qed.

(** C2, as the code has it.  A registered CTE alias other than the target
    is one node of the output; that node is the CTE node ["CTE: <name>"]
    when its in-degree in the assembled graph is not zero, and the raw
    source node ["RAW: <name>"] when it is zero, which is the case exactly
    when the CTE body references no table of another name. *)
Theorem cte_alias_shown_by_in_degree
  (parse_one : string -> Exc Expression) (sql : string)
  (parsed : Expression) (G : nx.DiGraph) (target_name : option string)
  (alias : string) (body : Expression) :
  parse_one sql = Ok parsed ->
  assemble parsed = Ok (G, target_name) ->
  In (alias, body) (cte_registry parsed) ->
  is_target alias target_name = false ->
  let r := get_production_lineage parse_one sql in
  let shown := if Nat.eqb (nx.in_degree alias G) 0
               then raw_node alias else cte_node alias in
  (nx.in_degree alias G = 0 <-> forall s, references body s -> s = alias) /\
  In shown (nodes r) /\
  (forall n, In n (nodes r) -> id n = alias -> n = shown).
Proof.
  intros Hp Ha Hreg Hnt r shown.
  pose proof (assemble_spec _ _ _ Ha) as HA.
  assert (In alias (Dict.keys (cte_registry parsed))) as Hkey
      by (change alias with (fst (alias, body)); now apply in_map).
  assert (format_node G target_name alias = shown) as Hshown
      by (now apply (cte_node_shown parsed)).
  unfold r. rewrite (resolved_by_assemble _ _ _ _ _ Hp Ha).
  split; [|split].
  - rewrite (in_degree_zero G (asm_inv _ _ _ HA)). split.
    + intros Hnone s Href. destruct (string_dec s alias) as [|Hne]; [assumption|].
      exfalso. apply (Hnone s), (asm_edges _ _ _ HA). split; [exact Hne|].
      left. now exists body.
    + intros Hall u Hin. apply (asm_edges _ _ _ HA) in Hin
        as [Hne [(e & He & Href)|(Htn & _)]].
      * rewrite (registry_functional _ _ _ _ He Hreg) in Href. auto.
      * rewrite Htn, is_target_refl in Hnt. discriminate.
  - assert (id shown = alias) as Hid
        by (unfold shown; now destruct (Nat.eqb (nx.in_degree alias G) 0)).
    apply format_nodes_In. rewrite Hid.
    split; [apply (asm_cte_nodes _ _ _ HA), Hkey | now rewrite Hshown].
  - intros n Hn Hid. apply format_nodes_In in Hn as [_ Hn].
    now rewrite Hn, Hid.
Qed.

Lemma cte_alias_shown_by_in_degree_witness :
  let G := assembled_graph ast_filtered_report in
  let body := Dict.get_default "filtered" (Node Other [])
                (cte_registry ast_filtered_report) in
  let r := get_production_lineage
             (parses_only sql_filtered_report ast_filtered_report)
             sql_filtered_report in
  let shown := if Nat.eqb (nx.in_degree "filtered" G) 0
               then raw_node "filtered" else cte_node "filtered" in
  (nx.in_degree "filtered" G = 0 <->
   forall s, references body s -> s = "filtered") /\
  In shown (nodes r) /\
  (forall n, In n (nodes r) -> id n = "filtered" -> n = shown).
Proof.
  apply (cte_alias_shown_by_in_degree
           (parses_only sql_filtered_report ast_filtered_report)
           sql_filtered_report ast_filtered_report
           (assembled_graph ast_filtered_report)
           (assembled_target ast_filtered_report) "filtered").
  - reflexivity.
  - vm_compute. reflexivity.
  - vm_compute. left. reflexivity.
  - vm_compute. reflexivity.
Defined.

(** C2, as stated, fails: in
    [WITH a AS (SELECT 1) INSERT INTO t SELECT * FROM a] the alias [a] is
    registered and is not the target [t], yet its only node in the output
    is the raw source node ["RAW: a"]. *)
Lemma constant_cte_shown_as_raw :
  In "a" (Dict.keys (cte_registry ast_constant_cte)) /\
  resolve_target ast_constant_cte = Ok (Some "t") /\
  get_production_lineage (parses_only sql_constant_cte ast_constant_cte)
                         sql_constant_cte
  = mkLineage [raw_node "a"; target_node "t"] [mkVisEdge "a" "t"] /\
  category (raw_node "a") = Some Raw /\
  raw_node "a" <> cte_node "a".
Proof.
  split; [vm_compute; now left|].
  split; [vm_compute; reflexivity|].
  split; [vm_compute; reflexivity|].
  split; [vm_compute; reflexivity | discriminate].
Qed.

(** C5.  When the enumeration of the write statements ([Create] or
    [Insert] nodes, breadth first) ends with a statement below which a
    table is found, and no earlier statement makes the loop raise, the
    resolved target is the name of that last statement's table, however
    many write statements come before it. *)
Theorem last_write_statement_wins
  (parsed : Expression) (earlier : list Expression) (last table : Expression)
  (name : string) :
  find_all is_Create_or_Insert parsed = earlier ++ [last] ->
  Forall (fun st => forall t, find is_Table st = Some t ->
                              exists n, this_sql t = Ok n) earlier ->
  find is_Table last = Some table ->
  this_sql table = Ok name ->
  resolve_target parsed = Ok (Some name).
Proof.
  intros Henum Hearlier Hfind Hname. unfold resolve_target.
  rewrite Henum, for_each_app.
  destruct (target_steps_total earlier None Hearlier) as [acc ->].
  simpl. unfold target_step. now rewrite Hfind, Hname.
Qed.

Lemma last_write_statement_wins_witness :
  resolve_target ast_multi_insert = Ok (Some "second_t").
Proof.
  apply (last_write_statement_wins ast_multi_insert
           [Node Insert [Node (Table (Some "first_t")) [Node Other []]]]
           (Node Insert [Node (Table (Some "second_t")) [Node Other []]])
           (Node (Table (Some "second_t")) [Node Other []])).
  - vm_compute. reflexivity.
  - constructor; [|constructor]. intros t Ht. vm_compute in Ht.
    injection Ht as <-. exists "first_t". reflexivity.
  - vm_compute. reflexivity.
  - reflexivity.
Defined.




(** C7.  When the resolved (non-empty) target name is also a registered
    CTE alias, its node carries the attributes of the target, set after
    those of the CTE, and is shown with the bare name and the target
    colour; no node of that name is shown as a CTE. *)
Theorem target_wins_over_cte
  (parse_one : string -> Exc Expression) (sql : string)
  (parsed : Expression) (G : nx.DiGraph) (t : string) :
  parse_one sql = Ok parsed ->
  assemble parsed = Ok (G, Some t) ->
  t <> "" ->
  In t (Dict.keys (cte_registry parsed)) ->
  let r := get_production_lineage parse_one sql in
  nx.node_attrs t G = target_attrs t /\
  In (target_node t) (nodes r) /\
  (forall n, In n (nodes r) -> id n = t ->
             n = target_node t /\ label n = t /\ category n = Some Target).
Proof.
  intros Hp Ha Ht Halias r.
  pose proof (assemble_spec _ _ _ Ha) as HA.
  destruct (target_node_shown _ _ _ HA Ht) as [Hin Hshown].
  unfold r. rewrite (resolved_by_assemble _ _ _ _ _ Hp Ha).
  split; [|split].
  - apply (asm_target_node _ _ _ HA t eq_refl (truthy_Some t Ht)).
  - apply format_nodes_In. cbn [id target_node]. now rewrite Hshown.
  - intros n Hn Hid. apply format_nodes_In in Hn as [_ Hn].
    rewrite Hid, Hshown in Hn. subst n. repeat split.
Qed.

Lemma target_wins_over_cte_witness :
  let G := assembled_graph ast_alias_is_target in
  let r := get_production_lineage
             (parses_only sql_alias_is_target ast_alias_is_target)
             sql_alias_is_target in
  nx.node_attrs "t" G = target_attrs "t" /\
  In (target_node "t") (nodes r) /\
  (forall n, In n (nodes r) -> id n = "t" ->
             n = target_node "t" /\ label n = "t" /\ category n = Some Target).
Proof.
  apply (target_wins_over_cte
           (parses_only sql_alias_is_target ast_alias_is_target)
           sql_alias_is_target ast_alias_is_target
           (assembled_graph ast_alias_is_target) "t").
  - reflexivity.
  - vm_compute. reflexivity.
  - discriminate.
  - vm_compute. now left.
Defined.

(** C8.  When a (non-empty) target name is resolved, [find(Select)]
    gives nothing and the tracing of the CTE bodies ends in the graph
    [G1], the target is a node of the output and the returned edges are
    those of [G1]: every edge into the target comes from the body of a
    CTE registered under the target's name. *)
Theorem target_without_select
  (parse_one : string -> Exc Expression) (sql : string)
  (parsed : Expression) (G1 : nx.DiGraph) (t : string) :
  parse_one sql = Ok parsed ->
  resolve_target parsed = Ok (Some t) ->
  t <> "" ->
  find is_Select parsed = None ->
  build_ctes (cte_registry parsed) nx.empty = Ok G1 ->
  let r := get_production_lineage parse_one sql in
  In (target_node t) (nodes r) /\
  edges r = map (fun '(u, v) => mkVisEdge u v) (nx.edges G1) /\
  (forall e, In e (edges r) -> to e = t ->
             from e <> t /\ feeds_cte parsed (from e) t).
Proof.
  intros Hp Htn Ht Hsel Hctes r.
  assert (assemble parsed = Ok (nx.add_node t (target_attrs t) G1, Some t)) as Ha.
  { unfold assemble. rewrite Htn. simpl. rewrite Hctes. simpl.
    apply String.eqb_neq in Ht. now rewrite Ht, Hsel. }
  pose proof (assemble_spec _ _ _ Ha) as HA.
  destruct (target_node_shown _ _ _ HA Ht) as [Hin Hshown].
  destruct (build_ctes_spec _ _ _ Inv_empty cte_phase_empty Hctes) as (HI1 & _).
  unfold r. rewrite (resolved_by_assemble _ _ _ _ _ Hp Ha).
  split; [|split].
  - apply format_nodes_In. cbn [id target_node]. now rewrite Hshown.
  - unfold format. cbn [edges]. now rewrite add_node_edges.
  - intros e He Hto. apply format_edges_In in He.
    apply (asm_edges _ _ _ HA) in He as [Hne [Hcte|(_ & _ & m & Hm & _)]].
    + rewrite Hto in Hne, Hcte. now split.
    + congruence.
Qed.

Lemma target_without_select_witness :
  let r := get_production_lineage
             (parses_only sql_insert_values ast_insert_values)
             sql_insert_values in
  In (target_node "t") (nodes r) /\
  edges r = map (fun '(u, v) => mkVisEdge u v) (nx.edges nx.empty) /\
  (forall e, In e (edges r) -> to e = "t" ->
             from e <> "t" /\ feeds_cte ast_insert_values (from e) "t").
Proof.
  apply (target_without_select
           (parses_only sql_insert_values ast_insert_values)
           sql_insert_values ast_insert_values nx.empty "t").
  - reflexivity.
  - vm_compute. reflexivity.
  - discriminate.
  - vm_compute. reflexivity.
  - vm_compute. reflexivity.
Defined.

(** C9.  In the output of an assembled graph every edge ends in a
    registered CTE alias or in the target; so a node that is neither has
    in-degree zero and is the end of no edge. *)
Theorem edges_end_in_cte_or_target
  (parse_one : string -> Exc Expression) (sql : string)
  (parsed : Expression) (G : nx.DiGraph) (target_name : option string) :
  parse_one sql = Ok parsed ->
  assemble parsed = Ok (G, target_name) ->
  let r := get_production_lineage parse_one sql in
  (forall e, In e (edges r) ->
             In (to e) (Dict.keys (cte_registry parsed)) \/
             target_name = Some (to e)) /\
  (forall n, In n (nodes r) ->
             ~ In (id n) (Dict.keys (cte_registry parsed)) ->
             target_name <> Some (id n) ->
             nx.in_degree (id n) G = 0 /\
             forall e, In e (edges r) -> to e <> id n).
Proof.
  intros Hp Ha r.
  pose proof (assemble_spec _ _ _ Ha) as HA.
  unfold r. rewrite (resolved_by_assemble _ _ _ _ _ Hp Ha).
  assert (forall x y, In (x, y) (nx.edges G) ->
            In y (Dict.keys (cte_registry parsed)) \/ target_name = Some y) as Hend.
  { intros x y Hin. apply (asm_edges _ _ _ HA) in Hin
      as [_ [(e & He & _)|(Htn & _)]]; [left | now right].
    change y with (fst (y, e)). now apply in_map. }
  split.
  - intros e He. apply format_edges_In in He. now apply (Hend (from e)).
  - intros n Hn Hnot_alias Hnot_target.
    assert (forall u, ~ In (u, id n) (nx.edges G)) as Hnone
        by (intros u Hin; destruct (Hend _ _ Hin); contradiction).
    split; [now apply (in_degree_zero G (asm_inv _ _ _ HA))|].
    intros e He Hto. apply format_edges_In in He. rewrite Hto in He.
    now apply (Hnone (from e)).
Qed.

Lemma edges_end_in_cte_or_target_witness :
  let G := assembled_graph ast_filtered_report in
  let r := get_production_lineage
             (parses_only sql_filtered_report ast_filtered_report)
             sql_filtered_report in
  (forall e, In e (edges r) ->
             In (to e) (Dict.keys (cte_registry ast_filtered_report)) \/
             Some "report" = Some (to e)) /\
  (forall n, In n (nodes r) ->
             ~ In (id n) (Dict.keys (cte_registry ast_filtered_report)) ->
             Some "report" <> Some (id n) ->
             nx.in_degree (id n) G = 0 /\
             forall e, In e (edges r) -> to e <> id n).
Proof.
  apply (edges_end_in_cte_or_target
           (parses_only sql_filtered_report ast_filtered_report)
           sql_filtered_report ast_filtered_report
           (assembled_graph ast_filtered_report) (Some "report")).
  - reflexivity.
  - vm_compute. reflexivity.
Defined.

(* ===================================================================== *)
(** ** Further facts: the walk, success of the steps, the node set *)
(* ===================================================================== *)

Lemma subexpr_trans x y z : subexpr x y -> subexpr y z -> subexpr x z.
Proof.
  intros Hxy Hyz. induction Hyz as [|k args a Hin Hya IH]; [exact Hxy|].
  now apply (sub_arg x k args a).
Qed.

(** The breadth-first walk of a queue yields exactly the expressions
    that lie in or below a member of the queue. *)
Lemma bfs_In x queue :
  In x (bfs queue) <-> exists e, In e queue /\ subexpr x e.
Proof.
  funelim (bfs queue).
  - simp bfs. split; [intros [] | intros (e & [] & _)].
  - simp bfs. destruct node as [k args]. simpl. rewrite H. split.
    + intros [<-|(e & Hin & Hsub)].
      * exists (Node k args). split; [now left | constructor].
      * apply in_app_iff in Hin as [Hin|Hin].
        -- exists e. split; [now right | exact Hsub].
        -- exists (Node k args). split; [now left|].
           now apply (sub_arg x k args e).
    + intros (e & [<-|Hin] & Hsub).
      * inversion Hsub as [|k' args' a Hin Ha]; subst; [now left|].
        right. exists a. split; [apply in_app_iff; now right | exact Ha].
      * right. exists e. split; [apply in_app_iff; now left | exact Hsub].
Qed.

Lemma walk_In x e : In x (walk e) <-> subexpr x e.
Proof.
  unfold walk. rewrite bfs_In. split.
  - intros (e' & [<-|[]] & H). exact H.
  - intros H. exists e. split; [now left | exact H].
Qed.

Lemma find_all_In types x e :
  In x (find_all types e) <-> subexpr x e /\ types (kind_of x) = true.
Proof. unfold find_all. now rewrite filter_In, walk_In. Qed.

Lemma find_Some_In types e x :
  find types e = Some x -> In x (find_all types e).
Proof.
  unfold find. destruct (find_all types e); simpl; [discriminate|].
  intros H. injection H as ->. now left.
Qed.

Lemma registry_In_ctes ctes : forall (d : Dict.t Expression) alias e,
  In (alias, e)
     (fold_left (fun d cte => Dict.set (alias_of cte) cte d) ctes d) ->
  In (alias, e) d \/ In e ctes.
Proof.
  induction ctes as [|c ctes IH]; simpl; intros d alias e H; [now left|].
  apply IH in H as [H|H]; [|right; now right].
  apply set_In_inv in H as [[_ ->]|H]; [right; now left | now left].
Qed.

Lemma registry_In_subexpr parsed alias e :
  In (alias, e) (cte_registry parsed) -> subexpr e parsed.
Proof.
  intros H. apply registry_In_ctes in H as [[]|H].
  now apply find_all_In in H.
Qed.

Lemma trace_steps_succeed name tables : forall G,
  (exists G', for_each (trace_step name) tables G = Ok G') <->
  Forall named tables.
Proof.
  induction tables as [|t ts IH]; simpl; intros G.
  - split; [constructor | now exists G].
  - unfold trace_step at 1. split.
    + intros [G' H]. apply bind_Ok in H as [G1 [Hstep Hrest]].
      apply bind_Ok in Hstep as [source [Hsrc _]].
      constructor; [now exists source|]. apply (IH G1). now exists G'.
    + intros Hall. inversion Hall as [|? ? [source Hsrc] Hts]; subst.
      rewrite Hsrc. simpl. now apply IH.
Qed.

Lemma build_ctes_succeed registry : forall G,
  (exists G', build_ctes registry G = Ok G') <->
  (forall alias e, In (alias, e) registry -> Forall named (find_all is_Table e)).
Proof.
  unfold build_ctes.
  induction registry as [|[alias e] rest IH]; simpl; intros G.
  - split; [intros _ ? ? [] | now exists G].
  - split.
    + intros [G' H]. apply bind_Ok in H as [G1 [Hstep Hrest]].
      intros a b [Heq|Hin].
      * injection Heq as <- <-. unfold cte_step, trace_dependencies in Hstep.
        apply (trace_steps_succeed alias _ (nx.add_node alias (cte_attrs alias) G)).
        now exists G1.
      * apply (proj1 (IH G1) (ex_intro _ G' Hrest) a b Hin).
    + intros Hall.
      destruct (proj2 (trace_steps_succeed alias (find_all is_Table e)
                         (nx.add_node alias (cte_attrs alias) G)))
        as [G1 HG1]; [apply (Hall alias e); now left|].
      unfold cte_step, trace_dependencies. rewrite HG1. simpl.
      apply IH. intros a b Hin. apply (Hall a b). now right.
Qed.

Lemma target_steps_succeed statements : forall acc,
  (exists acc', for_each target_step statements acc = Ok acc') <->
  Forall (fun st => forall t, find is_Table st = Some t -> named t) statements.
Proof.
  induction statements as [|st rest IH]; simpl; intros acc.
  - split; [constructor | now exists acc].
  - split.
    + intros [acc' H]. apply bind_Ok in H as [acc1 [Hstep Hrest]].
      constructor; [|apply (IH acc1); now exists acc'].
      intros t Ht. unfold target_step in Hstep. rewrite Ht in Hstep.
      apply bind_Ok in Hstep as [n [Hn _]]. now exists n.
    + intros Hall. exact (target_steps_total (st :: rest) acc Hall).
Qed.

Lemma build_target_succeed parsed target_name G :
  (exists G', build_target parsed target_name G = Ok G') <->
  (truthy target_name = true ->
   forall main_select, find is_Select parsed = Some main_select ->
                       Forall named (find_all is_Table main_select)).
Proof.
  unfold build_target. destruct target_name as [t|].
  2:{ split; [discriminate | now exists G]. }
  destruct (truthy (Some t)) eqn:Ht.
  2:{ split; [discriminate | now exists G]. }
  destruct (find is_Select parsed) as [m|] eqn:Hm.
  - unfold trace_dependencies. rewrite trace_steps_succeed. split.
    + intros Hall _ m' Heq. now injection Heq as <-.
    + intros H. now apply H.
  - split; [discriminate | eexists; reflexivity].
Qed.

(** The [try] block raises on a tree exactly when one of the tables it
    asks a name of has none. *)
Lemma lineage_of_succeeds parsed :
  (exists r, lineage_of parsed = Ok r) <-> scanned_tables_named parsed.
Proof.
  unfold scanned_tables_named. split.
  - intros [r Hr]. apply lineage_of_Ok in Hr as (G & tn & Ha & _).
    unfold assemble in Ha.
    apply bind_Ok in Ha as [tn' [Htn Ha]].
    apply bind_Ok in Ha as [G1 [HG1 Ha]].
    apply bind_Ok in Ha as [G2 [HG2 _]].
    split; [|split].
    + apply (target_steps_succeed _ None). now exists tn'.
    + apply (build_ctes_succeed _ nx.empty). now exists G1.
    + intros tn0 m Htn0 Ht Hm. rewrite Htn in Htn0. injection Htn0 as <-.
      apply (proj1 (build_target_succeed parsed tn' G1)); [now exists G2 | exact Ht | exact Hm].
  - intros (Hw & Hc & Ht).
    destruct (proj2 (target_steps_succeed _ None) Hw) as [tn Htn].
    destruct (proj2 (build_ctes_succeed _ nx.empty) Hc) as [G1 HG1].
    destruct (proj2 (build_target_succeed parsed tn G1)) as [G2 HG2].
    { intros Htruthy m Hm. now apply (Ht tn m). }
    exists (format G2 tn). unfold lineage_of, assemble.
    fold (resolve_target parsed). unfold resolve_target in *.
    rewrite Htn. simpl. rewrite HG1. simpl. rewrite HG2. reflexivity.
Qed.

Lemma trace_steps_nodes name tables : forall G G',
  Inv G -> In name (nx.nodes G) ->
  for_each (trace_step name) tables G = Ok G' ->
  forall x, In x (nx.nodes G') <->
            In x (nx.nodes G) \/
            (x <> name /\ exists t, In t tables /\ this_sql t = Ok x).
Proof.
  induction tables as [|t ts IH]; simpl; intros G G' HG Hname H x.
  - injection H as <-. split; [tauto|].
    intros [?|(_ & t & [] & _)]; assumption.
  - apply bind_Ok in H as [G1 [Hstep Hrest]].
    unfold trace_step in Hstep. apply bind_Ok in Hstep as [source [Hsrc HG1]].
    injection HG1 as HG1.
    assert (Inv G1) as HI1
        by (subst G1; destruct (String.eqb source name); [exact HG | now apply add_edge_Inv]).
    assert (forall y, In y (nx.nodes G1) <->
                      In y (nx.nodes G) \/ (y <> name /\ y = source)) as Hn1.
    { intros y. subst G1. case_eqb source name.
      - split; [tauto | intros [?|[? ?]]; [assumption | contradiction]].
      - rewrite add_edge_nodes. split.
        + intros [->|[->|?]]; [right; now split | now left | now left].
        + intros [?|[_ ->]]; tauto. }
    assert (In name (nx.nodes G1)) as Hname1 by (apply Hn1; now left).
    rewrite (IH G1 G' HI1 Hname1 Hrest x), Hn1. split.
    + intros [[?|[Hx ->]]|(Hx & t' & Ht' & Hsql)].
      * now left.
      * right. split; [exact Hx|]. exists t. split; [now left | exact Hsrc].
      * right. split; [exact Hx|]. exists t'. split; [now right | exact Hsql].
    + intros [?|(Hx & t' & [<-|Ht'] & Hsql)].
      * left. now left.
      * left. right. split; [exact Hx | congruence].
      * right. split; [exact Hx|]. now exists t'.
Qed.

Lemma cte_step_nodes alias e G G' :
  Inv G ->
  cte_step (alias, e) G = Ok G' ->
  forall x, In x (nx.nodes G') <->
            In x (nx.nodes G) \/ x = alias \/ (x <> alias /\ references e x).
Proof.
  intros HG H x. unfold cte_step, trace_dependencies in H.
  rewrite (trace_steps_nodes _ _ _ _
             (add_node_Inv alias (cte_attrs alias) G HG)
             (proj2 (add_node_nodes alias (cte_attrs alias) G alias)
                    (or_introl eq_refl)) H x).
  rewrite add_node_nodes. unfold references. tauto.
Qed.

Lemma build_ctes_nodes registry : forall G G',
  Inv G -> cte_phase G ->
  build_ctes registry G = Ok G' ->
  forall x, In x (nx.nodes G') <->
            In x (nx.nodes G) \/ In x (Dict.keys registry) \/
            (exists y e, In (y, e) registry /\ references e x /\ x <> y).
Proof.
  unfold build_ctes.
  induction registry as [|[alias e] rest IH]; simpl; intros G G' HG Hph H x.
  - injection H as <-. split; [tauto|].
    intros [?|[[]|(y & e & [] & _)]]. assumption.
  - apply bind_Ok in H as [G1 [Hstep Hrest]].
    destruct (cte_step_spec _ _ _ _ HG Hph Hstep) as (HI1 & Hph1 & _).
    rewrite (IH G1 G' HI1 Hph1 Hrest x), (cte_step_nodes _ _ _ _ HG Hstep x).
    split.
    + intros [[?|[->|[Hx Href]]]|[?|(y & e' & Hin & Href & Hx)]].
      * now left.
      * right. left. now left.
      * right. right. exists alias, e. repeat split; auto.
      * right. left. now right.
      * right. right. exists y, e'. repeat split; auto.
    + intros [?|[[<-|?]|(y & e' & [Heq|Hin] & Href & Hx)]].
      * left. now left.
      * left. right. now left.
      * right. now left.
      * injection Heq as <- <-. left. right. right. now split.
      * right. right. exists y, e'. repeat split; auto.
Qed.

Lemma build_target_nodes parsed target_name G G' :
  Inv G ->
  build_target parsed target_name G = Ok G' ->
  forall x, In x (nx.nodes G') <->
            In x (nx.nodes G) \/
            (target_name = Some x /\ truthy target_name = true) \/
            (exists y, x <> y /\ feeds_target parsed target_name x y).
Proof.
  intros HG H x. unfold build_target in H. unfold feeds_target.
  destruct target_name as [t|].
  2:{ injection H as <-. split; [tauto|].
      intros [?|[[? _]|(y & _ & ? & _)]]; [assumption | discriminate | discriminate]. }
  destruct (truthy (Some t)) eqn:Ht.
  2:{ injection H as <-. split; [tauto|].
      intros [?|[[_ ?]|(y & _ & _ & ? & _)]]; [assumption | discriminate | discriminate]. }
  destruct (find is_Select parsed) as [m|] eqn:Hm.
  - unfold trace_dependencies in H.
    rewrite (trace_steps_nodes _ _ _ _
               (add_node_Inv t (target_attrs t) G HG)
               (proj2 (add_node_nodes t (target_attrs t) G t)
                      (or_introl eq_refl)) H x).
    rewrite add_node_nodes. split.
    + intros [[->|?]|[Hx Href]].
      * right. left. now split.
      * now left.
      * right. right. exists t. split; [exact Hx|].
        repeat split. now exists m.
    + intros [?|[[Heq _]|(y & Hx & Heq & _ & m' & Hm' & Href)]].
      * left. now right.
      * injection Heq as ->. left. now left.
      * injection Heq as <-. injection Hm' as <-. right. now split.
  - injection H as <-. rewrite add_node_nodes. split.
    + intros [->|?]; [right; left; now split | now left].
    + intros [?|[[Heq _]|(y & _ & _ & _ & m' & Hm' & _)]].
      * now right.
      * injection Heq as ->. now left.
      * discriminate.
Qed.

(** The nodes of the assembled graph: the registered aliases, the target
    that passes [if target_name:], and the tables an edge starts from. *)
Lemma assemble_nodes parsed G target_name :
  assemble parsed = Ok (G, target_name) ->
  forall x, In x (nx.nodes G) <->
            In x (Dict.keys (cte_registry parsed)) \/
            (target_name = Some x /\ truthy target_name = true) \/
            (exists y, In (x, y) (nx.edges G)).
Proof.
  intros Ha x. pose proof (assemble_spec _ _ _ Ha) as HA.
  unfold assemble in Ha.
  apply bind_Ok in Ha as [tn [Htn Ha]].
  apply bind_Ok in Ha as [G1 [HG1 Ha]].
  apply bind_Ok in Ha as [G2 [HG2 Ha]].
  injection Ha as <- <-.
  destruct (build_ctes_spec _ _ _ Inv_empty cte_phase_empty HG1) as (HI1 & _).
  rewrite (build_target_nodes _ _ _ _ HI1 HG2 x).
  rewrite (build_ctes_nodes _ _ _ Inv_empty cte_phase_empty HG1 x).
  split.
  - intros [[[]|[?|(y & e & Hin & Href & Hx)]]|[?|(y & Hx & Hft)]].
    + now left.
    + right. right. exists y. apply (asm_edges _ _ _ HA). split; [exact Hx|].
      left. now exists e.
    + right. now left.
    + right. right. exists y. apply (asm_edges _ _ _ HA). split; [exact Hx|].
      now right.
  - intros [?|[?|(y & Hin)]].
    + left. right. now left.
    + right. now left.
    + apply (asm_edges _ _ _ HA) in Hin as [Hx [(e & Hin & Href)|Hft]].
      * left. right. right. now exists y, e.
      * right. right. now exists y.
Qed.

Lemma find_snoc {A} (f : A -> bool) l c :
  List.find f (l ++ [c])
  = match List.find f l with
    | Some x => Some x
    | None => if f c then Some c else None
    end.
Proof.
  induction l as [|a l IH]; simpl; [reflexivity|].
  destruct (f a); [reflexivity | exact IH].
Qed.

Lemma registry_get_fold alias ctes : forall d : Dict.t Expression,
  Dict.get alias
    (fold_left (fun d cte => Dict.set (alias_of cte) cte d) ctes d)
  = match List.find (fun cte => String.eqb (alias_of cte) alias) (rev ctes) with
    | Some cte => Some cte
    | None => Dict.get alias d
    end.
Proof.
  induction ctes as [|c ctes IH]; simpl; intros d; [reflexivity|].
  rewrite IH, find_snoc, get_set, (String.eqb_sym alias).
  destruct (List.find _ (rev ctes)); [reflexivity|].
  now destruct (String.eqb (alias_of c) alias).
Qed.

Lemma format_ids G target_name :
  map id (nodes (format G target_name)) = nx.nodes G.
Proof.
  unfold format. cbn [nodes]. rewrite map_map. simpl. apply map_id.
Qed.

Lemma format_edge_In G target_name u v :
  In (mkVisEdge u v) (edges (format G target_name)) <-> In (u, v) (nx.edges G).
Proof. now rewrite format_edges_In. Qed.

Lemma in_degree_pos G n :
  Inv G -> nx.in_degree n G <> 0 -> exists u, In (u, n) (nx.edges G).
Proof.
  intros HG Hdeg. unfold nx.in_degree in Hdeg.
  destruct (Dict.get_default n [] (nx._pred G)) as [|u l] eqn:Hp; [now destruct Hdeg|].
  exists u. apply (edges_spec G HG), (inv_transpose G HG).
  unfold mem_pred. rewrite Hp. now left.
Qed.

Lemma edge_ends_in_cte_or_target parsed G target_name x y :
  Assembled parsed G target_name ->
  In (x, y) (nx.edges G) ->
  In y (Dict.keys (cte_registry parsed)) \/
  (target_name = Some y /\ truthy target_name = true).
Proof.
  intros HA Hin. apply (asm_edges _ _ _ HA) in Hin
    as [_ [(e & He & _)|(Htn & Ht & _)]]; [left | now right].
  change y with (fst (y, e)). now apply in_map.
Qed.

Lemma raw_node_shown G target_name x :
  nx.in_degree x G = 0 -> is_target x target_name = false ->
  format_node G target_name x = raw_node x.
Proof.
  intros Hdeg Hnt. unfold format_node, is_raw. now rewrite Hdeg, Hnt.
Qed.

Lemma is_target_false x target_name :
  is_target x target_name = false <-> target_name <> Some x.
Proof.
  destruct target_name as [t|]; simpl; [|split; [discriminate | reflexivity]].
  rewrite String.eqb_neq. split; intros H; congruence.
Qed.

(* ===================================================================== *)
(** ** Further properties of the resolver *)
(* ===================================================================== *)

(** X1.  The returned edges of an assembled graph are exactly these:
    [u -> v] with [u <> v] where [u] is referenced in the CTE body
    registered under [v], or [v] is the target and [u] is referenced
    below the first [Select] of the statement. *)
Theorem edges_characterised
  (parse_one : string -> Exc Expression) (sql : string)
  (parsed : Expression) (G : nx.DiGraph) (target_name : option string) :
  parse_one sql = Ok parsed ->
  assemble parsed = Ok (G, target_name) ->
  forall u v,
    In (mkVisEdge u v) (edges (get_production_lineage parse_one sql)) <->
    u <> v /\ (feeds_cte parsed u v \/ feeds_target parsed target_name u v).
Proof.
  intros Hp Ha u v. rewrite (resolved_by_assemble _ _ _ _ _ Hp Ha).
  rewrite format_edge_In. apply (asm_edges _ _ _ (assemble_spec _ _ _ Ha)).
Qed.

Lemma edges_characterised_witness :
  In (mkVisEdge "orders" "filtered")
     (edges (get_production_lineage
               (parses_only sql_filtered_report ast_filtered_report)
               sql_filtered_report)) <->
  "orders" <> "filtered" /\
  (feeds_cte ast_filtered_report "orders" "filtered" \/
   feeds_target ast_filtered_report (Some "report") "orders" "filtered").
Proof.
  refine (edges_characterised
            (parses_only sql_filtered_report ast_filtered_report)
            sql_filtered_report ast_filtered_report
            (assembled_graph ast_filtered_report) (Some "report")
            _ _ "orders" "filtered").
  - reflexivity.
  - vm_compute. reflexivity.
Defined.

(** X2.  The returned node ids of an assembled graph are exactly the
    registered CTE aliases, the target name that passes
    [if target_name:], and the names an edge starts from. *)
Theorem nodes_characterised
  (parse_one : string -> Exc Expression) (sql : string)
  (parsed : Expression) (G : nx.DiGraph) (target_name : option string) :
  parse_one sql = Ok parsed ->
  assemble parsed = Ok (G, target_name) ->
  let r := get_production_lineage parse_one sql in
  forall x,
    In x (map id (nodes r)) <->
    In x (Dict.keys (cte_registry parsed)) \/
    (target_name = Some x /\ truthy target_name = true) \/
    (exists y, In (mkVisEdge x y) (edges r)).
Proof.
  intros Hp Ha r x. unfold r. rewrite (resolved_by_assemble _ _ _ _ _ Hp Ha).
  rewrite format_ids, (assemble_nodes _ _ _ Ha x).
  split; (intros [?|[?|[y Hy]]]; [now left | right; now left |]);
    right; right; exists y.
  - now apply (proj2 (format_edge_In G target_name x y)).
  - now apply (proj1 (format_edge_In G target_name x y)).
Qed.

Lemma nodes_characterised_witness :
  let r := get_production_lineage
             (parses_only sql_filtered_report ast_filtered_report)
             sql_filtered_report in
  In "orders" (map id (nodes r)) <->
  In "orders" (Dict.keys (cte_registry ast_filtered_report)) \/
  (Some "report" = Some "orders" /\ truthy (Some "report") = true) \/
  (exists y, In (mkVisEdge "orders" y) (edges r)).
Proof.
  refine (nodes_characterised
            (parses_only sql_filtered_report ast_filtered_report)
            sql_filtered_report ast_filtered_report
            (assembled_graph ast_filtered_report) (Some "report")
            _ _ "orders").
  - reflexivity.
  - vm_compute. reflexivity.
Defined.

(** X3.  Whatever the parser and the text, both ends of every returned
    edge are ids of returned nodes. *)
Theorem edge_endpoints_are_nodes
  (parse_one : string -> Exc Expression) (sql : string) :
  let r := get_production_lineage parse_one sql in
  forall e, In e (edges r) ->
            In (from e) (map id (nodes r)) /\ In (to e) (map id (nodes r)).
Proof.
  intros r e He. unfold r in *.
  destruct (get_production_lineage_cases parse_one sql)
    as [Hemp|(parsed & G & tn & _ & Ha & Hr)].
  - rewrite Hemp in He. destruct He.
  - rewrite Hr in *. rewrite format_ids. apply format_edges_In in He.
    pose proof (assemble_spec _ _ _ Ha) as HA. split.
    + apply (assemble_nodes _ _ _ Ha). right. right. now exists (to e).
    + apply (assemble_nodes _ _ _ Ha).
      destruct (edge_ends_in_cte_or_target _ _ _ _ _ HA He); [now left | right; now left].
Qed.

Lemma edge_endpoints_are_nodes_witness :
  let r := get_production_lineage
             (parses_only sql_filtered_report ast_filtered_report)
             sql_filtered_report in
  In "orders" (map id (nodes r)) /\ In "filtered" (map id (nodes r)).
Proof.
  refine (edge_endpoints_are_nodes
            (parses_only sql_filtered_report ast_filtered_report)
            sql_filtered_report (mkVisEdge "orders" "filtered") _).
  vm_compute. right. left. reflexivity.
Defined.

(** X4.  Whatever the parser and the text, no two returned nodes have
    the same id. *)
Theorem node_ids_unique
  (parse_one : string -> Exc Expression) (sql : string) :
  NoDup (map id (nodes (get_production_lineage parse_one sql))).
Proof.
  destruct (get_production_lineage_cases parse_one sql)
    as [->|(parsed & G & tn & _ & Ha & ->)]; [constructor|].
  rewrite format_ids. apply nodes_NoDup, (asm_inv _ _ _ (assemble_spec _ _ _ Ha)).
Qed.

(** X5.  In the output of an assembled graph whose target name is not
    the empty text, every node has one of three shapes: the target node
    when its id is the target; else the raw source node when no returned
    edge ends in it; else the CTE node, and then its id is a registered
    alias.  A table that is neither alias nor target is never shown in
    the style of a CTE. *)
Theorem every_node_classified
  (parse_one : string -> Exc Expression) (sql : string)
  (parsed : Expression) (G : nx.DiGraph) (target_name : option string) :
  parse_one sql = Ok parsed ->
  assemble parsed = Ok (G, target_name) ->
  target_name <> Some "" ->
  let r := get_production_lineage parse_one sql in
  forall n, In n (nodes r) ->
    (target_name = Some (id n) /\ n = target_node (id n)) \/
    (target_name <> Some (id n) /\
     (forall e, In e (edges r) -> to e <> id n) /\
     n = raw_node (id n)) \/
    (target_name <> Some (id n) /\
     In (id n) (Dict.keys (cte_registry parsed)) /\
     (exists e, In e (edges r) /\ to e = id n) /\
     n = cte_node (id n)).
Proof.
  intros Hp Ha Hne r n Hn. unfold r in *.
  rewrite (resolved_by_assemble _ _ _ _ _ Hp Ha) in *.
  pose proof (assemble_spec _ _ _ Ha) as HA.
  apply format_nodes_In in Hn as [Hin Hn]. set (x := id n) in *.
  destruct (is_target x target_name) eqn:Ht.
  - left. destruct target_name as [t|]; [|discriminate].
    simpl in Ht. apply String.eqb_eq in Ht. subst t.
    assert (x <> "") as Hx by congruence.
    split; [reflexivity|].
    rewrite Hn. apply (target_node_shown _ _ _ HA Hx).
  - right. pose proof (proj1 (is_target_false _ _) Ht) as Hnt.
    destruct (Nat.eq_dec (nx.in_degree x G) 0) as [Hz|Hnz].
    + left. split; [exact Hnt|]. split.
      * intros e He Hto. apply format_edges_In in He. rewrite Hto in He.
        now apply (proj1 (in_degree_zero G (asm_inv _ _ _ HA) x) Hz (from e)).
      * rewrite Hn. now apply raw_node_shown.
    + right. destruct (in_degree_pos G x (asm_inv _ _ _ HA) Hnz) as [u Hu].
      assert (In x (Dict.keys (cte_registry parsed))) as Halias.
      { destruct (edge_ends_in_cte_or_target _ _ _ _ _ HA Hu) as [?|[? _]];
          [assumption | contradiction]. }
      split; [exact Hnt|]. split; [exact Halias|]. split.
      * exists (mkVisEdge u x). split; [now apply format_edge_In | reflexivity].
      * rewrite Hn, (cte_node_shown _ _ _ _ HA Halias Ht).
        apply Nat.eqb_neq in Hnz. now rewrite Hnz.
Qed.

Lemma every_node_classified_witness :
  let r := get_production_lineage
             (parses_only sql_filtered_report ast_filtered_report)
             sql_filtered_report in
  let n := raw_node "orders" in
  (Some "report" = Some (id n) /\ n = target_node (id n)) \/
  (Some "report" <> Some (id n) /\
   (forall e, In e (edges r) -> to e <> id n) /\
   n = raw_node (id n)) \/
  (Some "report" <> Some (id n) /\
   In (id n) (Dict.keys (cte_registry ast_filtered_report)) /\
   (exists e, In e (edges r) /\ to e = id n) /\
   n = cte_node (id n)).
Proof.
  refine (every_node_classified
            (parses_only sql_filtered_report ast_filtered_report)
            sql_filtered_report ast_filtered_report
            (assembled_graph ast_filtered_report) (Some "report")
            _ _ _ (raw_node "orders") _).
  - reflexivity.
  - vm_compute. reflexivity.
  - discriminate.
  - vm_compute. right. left. reflexivity.
Defined.

(** X6.  A parsed statement without CTE and without [Create] or [Insert]
    node gives the empty result, whatever tables it reads: without a
    target and without CTE nothing is traced. *)
Theorem no_cte_no_write_is_empty
  (parse_one : string -> Exc Expression) (sql : string) (parsed : Expression) :
  parse_one sql = Ok parsed ->
  find_all is_CTE parsed = [] ->
  find_all is_Create_or_Insert parsed = [] ->
  get_production_lineage parse_one sql = empty_lineage.
Proof.
  intros Hp Hcte Hwrite. unfold get_production_lineage. rewrite Hp. simpl.
  unfold lineage_of, assemble, cte_registry, resolve_target.
  rewrite Hcte, Hwrite. reflexivity.
Qed.

Lemma no_cte_no_write_is_empty_witness :
  get_production_lineage (parses_only sql_plain_select ast_plain_select)
                         sql_plain_select = empty_lineage.
Proof.
  apply (no_cte_no_write_is_empty
           (parses_only sql_plain_select ast_plain_select)
           sql_plain_select ast_plain_select).
  - reflexivity.
  - vm_compute. reflexivity.
  - vm_compute. reflexivity.
Defined.



(** X8.  The registry maps an alias to the last CTE of that alias in the
    breadth-first enumeration, and to nothing when no CTE has it: of
    several definitions under one alias only the last is kept. *)
Theorem registry_last_definition_wins (parsed : Expression) (alias : string) :
  Dict.get alias (cte_registry parsed)
  = List.find (fun cte => String.eqb (alias_of cte) alias)
              (rev (find_all is_CTE parsed)).
Proof.
  unfold cte_registry. rewrite registry_get_fold. simpl.
  now destruct (List.find _ (rev (find_all is_CTE parsed))).
Qed.

(** X9.  Once the text is parsed, the resolver returns the formatted
    graph when every table it asks a name of has one, and the empty
    result when one of them has none. *)
Theorem resolution_succeeds_iff_tables_named
  (parse_one : string -> Exc Expression) (sql : string) (parsed : Expression) :
  parse_one sql = Ok parsed ->
  (scanned_tables_named parsed ->
   exists G target_name,
     assemble parsed = Ok (G, target_name) /\
     get_production_lineage parse_one sql = format G target_name) /\
  (~ scanned_tables_named parsed ->
   get_production_lineage parse_one sql = empty_lineage).
Proof.
  intros Hp. split.
  - intros Hs. apply lineage_of_succeeds in Hs as [r Hr].
    apply lineage_of_Ok in Hr as (G & tn & Ha & _).
    exists G, tn. split; [exact Ha | now apply resolved_by_assemble with parsed].
  - intros Hns. unfold get_production_lineage. rewrite Hp. simpl.
    destruct (lineage_of parsed) as [r|err] eqn:Hl; [|reflexivity].
    exfalso. apply Hns, lineage_of_succeeds. now exists r.
Qed.

Lemma resolution_succeeds_iff_tables_named_witness :
  (scanned_tables_named ast_create_schema ->
   exists G target_name,
     assemble ast_create_schema = Ok (G, target_name) /\
     get_production_lineage (parses_only sql_create_schema ast_create_schema)
                            sql_create_schema = format G target_name) /\
  (~ scanned_tables_named ast_create_schema ->
   get_production_lineage (parses_only sql_create_schema ast_create_schema)
                          sql_create_schema = empty_lineage).
Proof.
  apply (resolution_succeeds_iff_tables_named
           (parses_only sql_create_schema ast_create_schema)
           sql_create_schema ast_create_schema).
  reflexivity.
Defined.

(** X10.  When every table reference of the parsed statement has a name,
    no step of the [try] block raises: the result is the formatted
    graph. *)
Theorem all_tables_named_never_raises
  (parse_one : string -> Exc Expression) (sql : string) (parsed : Expression) :
  parse_one sql = Ok parsed ->
  (forall t, subexpr t parsed -> is_Table (kind_of t) = true -> named t) ->
  exists G target_name,
    assemble parsed = Ok (G, target_name) /\
    get_production_lineage parse_one sql = format G target_name.
Proof.
  intros Hp Hall.
  assert (forall e, subexpr e parsed -> Forall named (find_all is_Table e)) as Hbelow.
  { intros e He. apply Forall_forall. intros t Ht.
    apply find_all_In in Ht as [Hsub Hk].
    apply Hall; [now apply subexpr_trans with e | exact Hk]. }
  assert (scanned_tables_named parsed) as Hs.
  { split; [|split].
    - apply Forall_forall. intros st Hst t Ht.
      apply find_all_In in Hst as [Hst _].
      apply find_Some_In in Ht.
      pose proof (Hbelow st Hst) as Hf.
      now apply (proj1 (Forall_forall _ _) Hf).
    - intros alias e He. now apply Hbelow, registry_In_subexpr with alias.
    - intros tn m _ _ Hm. apply Hbelow.
      apply find_Some_In, find_all_In in Hm. tauto. }
  apply lineage_of_succeeds in Hs as [r Hr].
  apply lineage_of_Ok in Hr as (G & tn & Ha & _).
  exists G, tn. split; [exact Ha | now apply resolved_by_assemble with parsed].
Qed.

Lemma all_tables_named_never_raises_witness :
  exists G target_name,
    assemble ast_filtered_report = Ok (G, target_name) /\
    get_production_lineage
      (parses_only sql_filtered_report ast_filtered_report) sql_filtered_report
    = format G target_name.
Proof.
  apply (all_tables_named_never_raises
           (parses_only sql_filtered_report ast_filtered_report)
           sql_filtered_report ast_filtered_report).
  - reflexivity.
  - intros t Hsub Hk. apply walk_In in Hsub. vm_compute in Hsub.
    repeat (destruct Hsub as [<-|Hsub];
            [first [discriminate Hk | eexists; reflexivity]|]).
    destruct Hsub.
Defined.

(** X11.  On a well-formed graph, [trace_dependencies] that does not
    raise adds exactly the edges from the tables referenced below the
    expression, other than [node_name], to [node_name]; it keeps every
    edge, every node and every node attribute that was there. *)
Theorem trace_dependencies_adds_edges
  (expression : Expression) (node_name : string) (G G' : nx.DiGraph) :
  Inv G ->
  trace_dependencies expression node_name G = Ok G' ->
  Inv G' /\
  (forall x y, In (x, y) (nx.edges G') <->
               In (x, y) (nx.edges G) \/
               (y = node_name /\ x <> node_name /\ references expression x)) /\
  (forall x, nx.node_attrs x G' = nx.node_attrs x G) /\
  (forall x, In x (nx.nodes G) -> In x (nx.nodes G')).
Proof.
  intros HG H.
  destruct (trace_dependencies_spec _ _ _ _ HG H) as (HI' & Hedges & Hattrs & Hnodes).
  split; [exact HI'|]. split; [|split; assumption].
  intros x y. rewrite (edges_spec G' HI'), (edges_spec G HG). apply Hedges.
Qed.

Lemma trace_dependencies_adds_edges_witness :
  let G' := nx.add_edge "t" "owner" nx.empty in
  Inv G' /\
  (forall x y, In (x, y) (nx.edges G') <->
               In (x, y) (nx.edges nx.empty) \/
               (y = "owner" /\ x <> "owner" /\ references ast_plain_select x)) /\
  (forall x, nx.node_attrs x G' = nx.node_attrs x nx.empty) /\
  (forall x, In x (nx.nodes nx.empty) -> In x (nx.nodes G')).
Proof.
  apply (trace_dependencies_adds_edges ast_plain_select "owner" nx.empty).
  - exact Inv_empty.
  - vm_compute. reflexivity.
Defined.

(** X12.  When the loop over the write statements does not raise, the
    target is the name of the first table below the last write statement
    that has a table below it; statements without table are skipped, and
    without such a statement there is no target. *)
Theorem resolve_target_characterised
  (parsed : Expression) (target_name : option string) :
  resolve_target parsed = Ok target_name ->
  target_name
  = match List.find has_table (rev (find_all is_Create_or_Insert parsed)) with
    | Some statement => first_table_name statement
    | None => None
    end.
Proof.
  unfold resolve_target. generalize (@None string) as acc.
  induction (find_all is_Create_or_Insert parsed) as [|st rest IH];
    simpl; intros acc H.
  - now injection H.
  - apply bind_Ok in H as [acc1 [Hstep Hrest]].
    apply IH in Hrest. rewrite find_snoc.
    destruct (List.find has_table (rev rest)) as [s|]; [exact Hrest|].
    subst target_name. unfold target_step in Hstep.
    unfold has_table.
    destruct (find is_Table st) as [t|] eqn:Hf; [|now injection Hstep].
    apply bind_Ok in Hstep as [n [Hn Hacc]].
    unfold first_table_name. rewrite Hf, Hn. now injection Hacc.
Qed.

Lemma resolve_target_characterised_witness :
  Some "second_t"
  = match List.find has_table
            (rev (find_all is_Create_or_Insert ast_multi_insert)) with
    | Some statement => first_table_name statement
    | None => None
    end.
Proof.
  apply (resolve_target_characterised ast_multi_insert (Some "second_t")).
  vm_compute. reflexivity.
Defined.

Lemma set_not_nil {V} k (v : V) d : Dict.set k v d <> [].
Proof.
  destruct d as [|[k' v'] d]; simpl; [discriminate|].
  destruct (String.eqb k k'); discriminate.
Qed.

Lemma registry_fold_nil ctes : forall d : Dict.t Expression,
  fold_left (fun d cte => Dict.set (alias_of cte) cte d) ctes d = [] ->
  ctes = [] /\ d = [].
Proof.
  induction ctes as [|c ctes IH]; simpl; intros d H; [now split|].
  apply IH in H as [_ H]. now apply set_not_nil in H.
Qed.

(** X13.  The output of an assembled graph is the empty result exactly
    when the statement has no CTE and no target name that passes
    [if target_name:]; with a CTE or such a target the node list is not
    empty, so only then is an empty result a sign of failure. *)
Theorem assembled_empty_iff
  (parse_one : string -> Exc Expression) (sql : string)
  (parsed : Expression) (G : nx.DiGraph) (target_name : option string) :
  parse_one sql = Ok parsed ->
  assemble parsed = Ok (G, target_name) ->
  (get_production_lineage parse_one sql = empty_lineage <->
   find_all is_CTE parsed = [] /\ truthy target_name = false).
Proof.
  intros Hp Ha. rewrite (resolved_by_assemble _ _ _ _ _ Hp Ha).
  pose proof (assemble_nodes _ _ _ Ha) as Hnodes. split.
  - intros Hemp.
    assert (nx.nodes G = []) as Hnil
        by (rewrite <- (format_ids G target_name), Hemp; reflexivity).
    split.
    + unfold cte_registry in Hnodes.
      destruct (fold_left (fun d cte => Dict.set (alias_of cte) cte d)
                          (find_all is_CTE parsed) []) as [|[a e] reg] eqn:Hreg.
      * now apply registry_fold_nil in Hreg.
      * exfalso. assert (In a (nx.nodes G)) as Hin
            by (apply Hnodes; left; now left).
        rewrite Hnil in Hin. destruct Hin.
    + destruct (truthy target_name) eqn:Ht; [|reflexivity].
      exfalso. destruct target_name as [t|]; [|discriminate].
      assert (In t (nx.nodes G)) as Hin by (apply Hnodes; right; left; now split).
      rewrite Hnil in Hin. destruct Hin.
  - intros [Hcte Ht]. unfold assemble, cte_registry in Ha. rewrite Hcte in Ha.
    apply bind_Ok in Ha as [tn [Htn Ha]]. simpl in Ha.
    apply bind_Ok in Ha as [G2 [HG2 Ha]]. injection Ha as <- <-.
    unfold build_target in HG2. destruct tn as [t|].
    + rewrite Ht in HG2. now injection HG2 as <-.
    + now injection HG2 as <-.
Qed.

Lemma assembled_empty_iff_witness :
  get_production_lineage (parses_only sql_plain_select ast_plain_select)
                         sql_plain_select = empty_lineage <->
  find_all is_CTE ast_plain_select = [] /\ truthy None = false.
Proof.
  apply (assembled_empty_iff
           (parses_only sql_plain_select ast_plain_select)
           sql_plain_select ast_plain_select nx.empty None).
  - reflexivity.
  - vm_compute. reflexivity.
Defined.
